(* ===================================================================== *)
(* Online Mahalanobis outlier detector (CoreMahalanobis): a shallow       *)
(* embedding of the detector's constructor and of _get_preds, in exact    *)
(* arithmetic over an ordered field, with MathComp matrices standing for  *)
(* the numpy arrays.                                                      *)
(* ===================================================================== *)
From HB Require Import structures.
Set Warnings "-notation-overridden,-ambiguous-paths,-rewrite-rw".
From mathcomp Require Import boot order algebra.

Set Implicit Arguments.
Unset Strict Implicit.
Unset Printing Implicit Defensive.

Import GRing.Theory Num.Theory Order.Theory.
Local Open Scope ring_scope.

(* --------------------------------------------------------------------- *)
(* Exceptions and results                                                 *)
(* --------------------------------------------------------------------- *)

(* The Python exceptions a call can end with:
   - TypeError: self.clip is None and is subscripted (self.clip[0]);
   - IndexError: new_means_offset[0] on an empty batch;
   - LinAlgError: scipy.linalg.eigh fails to converge;
   - ValueError: scipy.linalg.eigh rejects its input (a non-finite entry,
     a bad index range);
   - ZeroDivisionError: the float division (n+i-1.)/float(n+i-2.);
   - ConfigurationError: the error the specification expects from the
     constructor (the source never raises it). *)
Inductive exn : Type :=
  | TypeError
  | IndexError
  | LinAlgError
  | ValueError
  | ZeroDivisionError
  | ConfigurationError.

Inductive result (A : Type) : Type :=
  | Ok of A
  | Raise of exn.

Arguments Raise {A} e.

Definition is_ok A (r : result A) : bool :=
  if r is Ok _ then true else false.

Definition rbind A B (r : result A) (f : A -> result B) : result B :=
  match r with
  | Ok a => f a
  | Raise e => Raise e
  end.

(* --------------------------------------------------------------------- *)
(* A state-and-exception monad: a method body runs on the object `self`   *)
(* and ends with a value or an exception, and with the object as the      *)
(* assignments executed so far left it.                                   *)
(* --------------------------------------------------------------------- *)
Section Monad.

Variable S : Type.

Definition M (A : Type) : Type := S -> result A * S.

Definition ret A (a : A) : M A := fun s => (Ok a, s).

Definition raise A (e : exn) : M A := fun s => (Raise e, s).

Definition bind A B (m : M A) (f : A -> M B) : M B :=
  fun s =>
    match m s with
    | (Ok a, s') => f a s'
    | (Raise e, s') => (Raise e, s')
    end.

Definition get : M S := fun s => (Ok s, s).

Definition modify (f : S -> S) : M unit := fun s => (Ok tt, f s).

Definition lift A (r : result A) : M A := fun s => (r, s).

End Monad.

Arguments ret {S A} a.
Arguments raise {S A} e.
Arguments get {S}.
Arguments lift {S A} r.

Declare Scope monad_scope.
Delimit Scope monad_scope with monad.
Notation "x <- m ;; f" := (bind m (fun x => f))
  (at level 61, m at next level, right associativity) : monad_scope.
Notation "m ;; f" := (bind m (fun _ => f))
  (at level 61, right associativity) : monad_scope.

(* --------------------------------------------------------------------- *)
(* The detector                                                           *)
(* --------------------------------------------------------------------- *)
Section CoreMahalanobis.

(* The scalars: an ordered field (exact arithmetic in place of float64). *)
Variable F : realFieldType.

(* The number of features, X.shape[1]. *)
Variable p : nat.

(* The attributes of a CoreMahalanobis object. self.C starts as the       *)
(* integer 0 and becomes a p x p array with the first batch: None is the  *)
(* integer 0. self.mean starts as the integer 0, which numpy broadcasts   *)
(* to the zero vector. score and prediction are set by _get_preds.        *)
Record detector : Type := Detector {
  threshold : F;
  n_components : nat;
  max_n : int;
  n_stdev : F;
  start_clip : int;
  clip : option ('rV[F]_p * 'rV[F]_p);
  mean : 'rV[F]_p;
  C : option 'M[F]_p;
  n : nat;
  score : seq F;
  prediction : seq nat
}.

(* CoreMahalanobis.__init__(threshold, n_components, n_stdev, start_clip,
   max_n): stores its arguments and the empty statistics; it has no raise
   statement. *)
Definition init (threshold : F) (n_components : nat) (n_stdev : F)
    (start_clip max_n : int) : result detector :=
  Ok {| threshold := threshold; n_components := n_components;
        max_n := max_n; n_stdev := n_stdev; start_clip := start_clip;
        clip := None; mean := 0; C := None; n := 0;
        score := [::]; prediction := [::] |}.

(* The defaults of the constructor's signature. *)
Definition default_threshold : F := 25%:R.
Definition default_n_components : nat := 3.
Definition default_n_stdev : F := 3%:R.
Definition default_start_clip : int := 50%:Z.
Definition default_max_n : int := -1.

(* self.C as an array: the integer 0 broadcasts to the zero matrix. *)
Definition C_val (self : detector) : 'M[F]_p := odflt 0 (C self).

(* if self.max_n>0: n = min(self.n,self.max_n) else: n = self.n *)
Definition effective_n (self : detector) : int :=
  if 0 < max_n self then Num.min (n self)%:Z (max_n self) else (n self)%:Z.

(* np.clip(X, lo, hi), row by row: minimum(maximum(x, lo), hi). *)
Definition np_clip (X : seq 'rV[F]_p) (lo hi : 'rV[F]_p) : seq 'rV[F]_p :=
  map (fun x : 'rV[F]_p =>
         \row_j Num.min (Num.max (x 0 j) (lo 0 j)) (hi 0 j)) X.

(* if self.n > self.start_clip: Xclip = np.clip(X,self.clip[0],self.clip[1])
   else: Xclip = X *)
Definition get_Xclip (self : detector) (X : seq 'rV[F]_p)
    : result (seq 'rV[F]_p) :=
  if start_clip self < (n self)%:Z then
    match clip self with
    | Some (lo, hi) => Ok (np_clip X lo hi)
    | None => Raise TypeError
    end
  else Ok X.

Section Moments.

(* The pre-batch statistics and the effective n. *)
Variables (mean0 : 'rV[F]_p) (C0 : 'M[F]_p) (n0 : int).

(* The scalar n + i as a float. *)
Definition nplus (i : nat) : F := (n0 + i%:Z)%:~R.

(* roll_partial_means = Xclip.cumsum(axis=0)/(np.arange(nb)+1).reshape((nb,1)) *)
Definition roll_partial_means (Xclip : seq 'rV[F]_p) : seq 'rV[F]_p :=
  mkseq (fun i => (i.+1%:R)^-1 *: (\sum_(x <- take i.+1 Xclip) x))
        (size Xclip).

(* coefs = (np.arange(nb)+1.)/(np.arange(nb)+n+1.)
   new_means = self.mean + coefs.reshape((nb,1))*(roll_partial_means-self.mean) *)
Definition new_means (Xclip : seq 'rV[F]_p) : seq 'rV[F]_p :=
  mkseq (fun i => mean0 + (i.+1%:R / (nplus i + 1)) *:
                    (nth 0 (roll_partial_means Xclip) i - mean0))
        (size Xclip).

(* new_means_offset[0] = self.mean; new_means_offset[1:] = new_means[:-1] *)
Definition new_means_offset (Xclip : seq 'rV[F]_p) : seq 'rV[F]_p :=
  belast mean0 (new_means Xclip).

(* coefs = ((n+np.arange(nb))/(n+np.arange(nb)+1.)).reshape((nb,1,1))
   B = coefs*np.matmul((Xclip - new_means_offset)[:,:,None],
                       (Xclip - new_means_offset)[:,None,:]) *)
Definition cov_B (Xclip : seq 'rV[F]_p) : seq 'M[F]_p :=
  mkseq (fun i =>
           let d := nth 0 Xclip i - nth 0 (new_means_offset Xclip) i in
           (nplus i / (nplus i + 1)) *: (d^T *m d))
        (size Xclip).

(* max(1,nb-1.) *)
Definition max1 (nb : nat) : nat := maxn 1 (nb - 1).

(* cov_batch = (n-1.)/(n+max(1,nb-1.))*self.C
               + 1./(n+max(1,nb-1.))*B.sum(axis=0) *)
Definition cov_batch (Xclip : seq 'rV[F]_p) : 'M[F]_p :=
  let nb := size Xclip in
  ((n0%:~R - 1) / (n0%:~R + (max1 nb)%:R)) *: C0
  + (1 / (n0%:~R + (max1 nb)%:R)) *: (\sum_(b <- cov_B Xclip) b).

End Moments.

(* --------------------------------------------------------------------- *)
(* Projection on the principal components and the inverses               *)
(* --------------------------------------------------------------------- *)
Section Subspace.

(* The number of components kept, min(self.n_components, p). *)
Variable k : nat.

(* np.matmul(X, eigvects), row by row. *)
Definition project (eigvects : 'M[F]_(p, k)) (X : seq 'rV[F]_p)
    : seq 'rV[F]_k :=
  [seq x *m eigvects | x <- X].

(* if type(self.C) == int and self.C == 0:
       proj_cov = np.diag(np.zeros(n_components))
   else:
       proj_cov = np.matmul(eigvects.transpose(),np.matmul(self.C,eigvects)) *)
Definition get_proj_cov (C : option 'M[F]_p) (eigvects : 'M[F]_(p, k))
    : 'M[F]_k :=
  if C is Some c then eigvects^T *m (c *m eigvects) else 0.

(* _EPSILON = 1e-8. The constant is locked: its value is reached through
   the equation EPSILON_def, never by unfolding the numeral. *)
Definition EPSILON : F := locked ((10%:R ^+ 8)^-1).

(* coefs = (1./(n+np.arange(nb)+1.)).reshape((nb,1,1))
   B = coefs*np.matmul((proj_x_clip - proj_means)[:,:,None],
                       (proj_x_clip - proj_means)[:,None,:]) *)
Definition inv_B (n0 : int) (proj_x_clip proj_means : seq 'rV[F]_k)
    : seq 'M[F]_k :=
  mkseq (fun i =>
           let d := nth 0 proj_x_clip i - nth 0 proj_means i in
           (1 / (nplus n0 i + 1)) *: (d^T *m d))
        (size proj_x_clip).

(* The variables the loop over the rows assigns. *)
Record loop_state : Type := LoopState {
  c_inv : option 'M[F]_k;
  proj_cov : 'M[F]_k;
  all_C_inv : seq 'M[F]_k
}.

(* One iteration, for i, b in enumerate(B):
     if c_inv is None:
         if abs(np.linalg.det(proj_cov)) > _EPSILON:
             c_inv = np.linalg.inv(proj_cov)
             all_C_inv[i] = c_inv
             continue
         else:
             if n + i == 0:
                 continue
             proj_cov = (n + i -1. )/(n + i)*proj_cov + b
             continue
     else:
         c_inv = (n + i - 1.)/float(n + i - 2.)*all_C_inv[i-1]
     BC1 = np.matmul(B[i-1],c_inv)
     all_C_inv[i] = c_inv - 1./(1.+np.trace(BC1))*np.matmul(c_inv,BC1)
   The division by float(n + i - 2.) is a division of Python floats and
   raises ZeroDivisionError at n + i = 2; the other divisions have a
   non-zero divisor or are numpy divisions, read in the field. The else
   branch is entered only after a seed row, so there i >= 1.
   The determinant is the determinant of the field: np.linalg.det rounds,
   and on a singular proj_cov may return a value above _EPSILON where this
   test fails. What is proved of the loop is therefore stated on the
   outcome of the test (the row at which it passes, or that c_inv is
   still None), not on a prediction of it. *)
Definition inv_step (n0 : int) (B : seq 'M[F]_k) (i : nat) (ls : loop_state)
    : result loop_state :=
  match c_inv ls with
  | None =>
      if EPSILON < `|\det (proj_cov ls)| then
        let c := invmx (proj_cov ls) in
        Ok (LoopState (Some c) (proj_cov ls) (set_nth 0 (all_C_inv ls) i c))
      else if n0 + i%:Z == 0 then Ok ls
      else
        Ok (LoopState None
              (((nplus n0 i - 1) / nplus n0 i) *: proj_cov ls + nth 0 B i)
              (all_C_inv ls))
  | Some _ =>
      if n0 + i%:Z - 2 == 0 then Raise ZeroDivisionError
      else
        let c := ((nplus n0 i - 1) / (nplus n0 i - 2))
                   *: nth 0 (all_C_inv ls) i.-1 in
        let BC1 := nth 0 B i.-1 *m c in
        Ok (LoopState (Some c) (proj_cov ls)
              (set_nth 0 (all_C_inv ls) i
                 (c - (1 / (1 + \tr BC1)) *: (c *m BC1))))
  end.

(* The iterations over the given row indices, in order. *)
Fixpoint inv_loop (n0 : int) (B : seq 'M[F]_k) (rows : seq nat)
    (ls : loop_state) : result loop_state :=
  if rows is i :: rows' then
    rbind (inv_step n0 B i ls) (inv_loop n0 B rows')
  else Ok ls.

(* all_C_inv = np.zeros_like(B); c_inv = None; the loop over enumerate(B). *)
Definition loop_init (B : seq 'M[F]_k) (proj_cov0 : 'M[F]_k) : loop_state :=
  LoopState None proj_cov0 (nseq (size B) 0).

Definition run_loop (n0 : int) (B : seq 'M[F]_k) (proj_cov0 : 'M[F]_k)
    : result loop_state :=
  inv_loop n0 B (iota 0 (size B)) (loop_init B proj_cov0).

(* np.matmul(x_diff[:,None,:],
             np.matmul(all_C_inv,x_diff[:,:,None])).reshape(nb) *)
Definition get_score (x_diff : seq 'rV[F]_k) (all_C_inv : seq 'M[F]_k)
    : seq F :=
  mkseq (fun i =>
           let d := nth 0 x_diff i in
           (d *m (nth 0 all_C_inv i *m d^T)) 0 0)
        (size x_diff).

End Subspace.

(* np.array([1 if s > self.threshold else 0 for s in self.score]) *)
Definition get_prediction (threshold : F) (score : seq F) : seq nat :=
  [seq if threshold < s then 1%N else 0%N | s <- score].

(* Row-wise difference of two arrays of the same shape. *)
Definition rows_sub k (X Y : seq 'rV[F]_k) : seq 'rV[F]_k :=
  mkseq (fun i => nth 0 X i - nth 0 Y i) (size X).

(* --------------------------------------------------------------------- *)
(* _get_preds                                                             *)
(* --------------------------------------------------------------------- *)

(* Assignments to the attributes of self. *)
Definition set_mean (v : 'rV[F]_p) : M detector unit :=
  modify (fun s => Detector (threshold s) (n_components s) (max_n s)
    (n_stdev s) (start_clip s) (clip s) v (C s) (n s) (score s)
    (prediction s)).

Definition set_C (v : 'M[F]_p) : M detector unit :=
  modify (fun s => Detector (threshold s) (n_components s) (max_n s)
    (n_stdev s) (start_clip s) (clip s) (mean s) (Some v) (n s) (score s)
    (prediction s)).

Definition set_n (v : nat) : M detector unit :=
  modify (fun s => Detector (threshold s) (n_components s) (max_n s)
    (n_stdev s) (start_clip s) (clip s) (mean s) (C s) v (score s)
    (prediction s)).

Definition set_clip (lo hi : 'rV[F]_p) : M detector unit :=
  modify (fun s => Detector (threshold s) (n_components s) (max_n s)
    (n_stdev s) (start_clip s) (Some (lo, hi)) (mean s) (C s) (n s)
    (score s) (prediction s)).

Definition set_score (v : seq F) : M detector unit :=
  modify (fun s => Detector (threshold s) (n_components s) (max_n s)
    (n_stdev s) (start_clip s) (clip s) (mean s) (C s) (n s) v
    (prediction s)).

Definition set_prediction (v : seq nat) : M detector unit :=
  modify (fun s => Detector (threshold s) (n_components s) (max_n s)
    (n_stdev s) (start_clip s) (clip s) (mean s) (C s) (n s) (score s) v).

(* The numerical routines the method imports:
   eigh k (lo, hi) A is scipy.linalg.eigh(A, eigvals=(lo,hi))[1], the
   array of the eigenvectors of index lo to hi in ascending order of
   eigenvalue, read as p x k, or the exception the routine raises
   (LinAlgError, ValueError);
   sqrt is np.sqrt. *)
Variable eigh :
  forall k : nat, int * int -> 'M[F]_p -> result 'M[F]_(p, k).
Variable sqrt : F -> F.

(* The index range handed to eigh: eigvals=(p-n_components,p-1). *)
Definition eigvals_range (k : nat) : int * int :=
  (p%:Z - k%:Z, p%:Z - 1).

Local Open Scope monad_scope.

Definition _get_preds (X : seq 'rV[F]_p) : M detector (seq nat) :=
  self <- get ;;
  let nb := size X in
  let k := minn (n_components self) p in
  let n0 := effective_n self in
  (* Clip X *)
  Xclip <- lift (get_Xclip self X) ;;
  (* Tracking the mean and covariance matrix *)
  let new_means := new_means (mean self) n0 Xclip in
  new_means_offset <-
    (if nb is 0%N then raise IndexError
     else ret (new_means_offset (mean self) n0 Xclip)) ;;
  let cov_batch := cov_batch (mean self) (C_val self) n0 Xclip in
  (* PCA *)
  eigvects <- lift (eigh k (eigvals_range k) cov_batch) ;;
  (* Projections *)
  let proj_x := project eigvects X in
  let proj_x_clip := project eigvects Xclip in
  let proj_means := project eigvects new_means_offset in
  let proj_cov := get_proj_cov (C self) eigvects in
  (* Inverses of the covariance matrices *)
  let B := inv_B n0 proj_x_clip proj_means in
  ls <- lift (run_loop n0 B proj_cov) ;;
  (* Update of the attributes *)
  set_mean (last (mean self) new_means) ;;
  set_C cov_batch ;;
  let stdev : 'rV[F]_p := \row_j sqrt (cov_batch j j) in
  self1 <- get ;;
  set_n (n self1 + nb) ;;
  self2 <- get ;;
  (if start_clip self2 < (n self2)%:Z then
     set_clip (mean self2 - n_stdev self2 *: stdev)
              (mean self2 + n_stdev self2 *: stdev)
   else ret tt) ;;
  (* Outlier scores and predictions *)
  let x_diff := rows_sub proj_x proj_means in
  set_score (get_score x_diff (all_C_inv ls)) ;;
  self3 <- get ;;
  set_prediction (get_prediction (threshold self3) (score self3)) ;;
  self4 <- get ;;
  ret (prediction self4).

Local Close Scope monad_scope.

(* --------------------------------------------------------------------- *)
(* The values a call computes, named after the method's local variables,  *)
(* as functions of the pre-call object.                                   *)
(* --------------------------------------------------------------------- *)

Definition n_comp (self : detector) : nat := minn (n_components self) p.

Definition means_of (self : detector) (Xclip : seq 'rV[F]_p) :=
  new_means (mean self) (effective_n self) Xclip.

Definition means_offset_of (self : detector) (Xclip : seq 'rV[F]_p) :=
  new_means_offset (mean self) (effective_n self) Xclip.

Definition cov_batch_of (self : detector) (Xclip : seq 'rV[F]_p) :=
  cov_batch (mean self) (C_val self) (effective_n self) Xclip.

Definition inv_B_of (self : detector) (Xclip : seq 'rV[F]_p)
    (V : 'M[F]_(p, n_comp self)) : seq 'M[F]_(n_comp self) :=
  inv_B (effective_n self) (project V Xclip)
        (project V (means_offset_of self Xclip)).

Definition run_loop_of (self : detector) (Xclip : seq 'rV[F]_p)
    (V : 'M[F]_(p, n_comp self)) : result (loop_state (n_comp self)) :=
  run_loop (effective_n self) (inv_B_of Xclip V) (get_proj_cov (C self) V).

Definition score_of (self : detector) (X Xclip : seq 'rV[F]_p)
    (V : 'M[F]_(p, n_comp self)) (inverses : seq 'M[F]_(n_comp self))
    : seq F :=
  get_score (rows_sub (project V X) (project V (means_offset_of self Xclip)))
            inverses.

(* The object after a call that raised nothing. *)
Definition commit (self : detector) (X Xclip : seq 'rV[F]_p)
    (V : 'M[F]_(p, n_comp self)) (inverses : seq 'M[F]_(n_comp self))
    : detector :=
  let mean1 := last (mean self) (means_of self Xclip) in
  let stdev : 'rV[F]_p := \row_j sqrt (cov_batch_of self Xclip j j) in
  let n1 := (n self + size X)%N in
  let sc := score_of X Xclip V inverses in
  {| threshold := threshold self; n_components := n_components self;
     max_n := max_n self; n_stdev := n_stdev self;
     start_clip := start_clip self;
     clip := if start_clip self < n1%:Z
             then Some (mean1 - n_stdev self *: stdev,
                        mean1 + n_stdev self *: stdev)
             else clip self;
     mean := mean1;
     C := Some (cov_batch_of self Xclip);
     n := n1;
     score := sc;
     prediction := get_prediction (threshold self) sc |}.

(* The states a detector goes through: the constructed object, then the
   object as each call leaves it (a call that raises included). *)
Inductive reachable (self0 : detector) : detector -> Prop :=
  | reach_init : reachable self0 self0
  | reach_call (self : detector) (X : seq 'rV[F]_p) :
      reachable self0 self -> reachable self0 (_get_preds X self).2.

(* Successive calls, one per batch. *)
Fixpoint process_all (batches : seq (seq 'rV[F]_p)) (self : detector)
    : detector :=
  if batches is X :: batches' then
    process_all batches' (_get_preds X self).2
  else self.

(* --------------------------------------------------------------------- *)
(* Reference notions the statements compare the code with                 *)
(* --------------------------------------------------------------------- *)

(* The sample mean of a list of observations. *)
Definition sample_mean (xs : seq 'rV[F]_p) : 'rV[F]_p :=
  ((size xs)%:R)^-1 *: (\sum_(x <- xs) x).

(* The sample covariance of a list of observations, with divisor n-1. *)
Definition sample_cov (xs : seq 'rV[F]_p) : 'M[F]_p :=
  (((size xs)%:R - 1)^-1) *:
    (\sum_(x <- xs) (x - sample_mean xs)^T *m (x - sample_mean xs)).

(* The scatter of a list of observations about its mean: n-1 times the
   sample covariance. *)
Definition scatter (xs : seq 'rV[F]_p) : 'M[F]_p :=
  \sum_(x <- xs) (x - sample_mean xs)^T *m (x - sample_mean xs).

(* The detector holds the sample statistics of the observations xs. *)
Definition tracks (self : detector) (xs : seq 'rV[F]_p) : Prop :=
  [/\ n self = size xs, mean self = sample_mean xs
     & C_val self = sample_cov xs].

(* Every call of the run returns. *)
Fixpoint all_return (batches : seq (seq 'rV[F]_p)) (self : detector)
    : bool :=
  if batches is X :: batches' then
    is_ok (_get_preds X self).1 && all_return batches' (_get_preds X self).2
  else true.

Section RunningCovariance.

Variable k : nat.
Variables (n0 : int) (B : seq 'M[F]_k) (proj_cov0 : 'M[F]_k).

(* The running projected covariance as it stands before row i: the
   recurrence proj_cov <- (n+i-1)/(n+i) * proj_cov + B[i] applied for every
   earlier row (a row at n + i = 0 has nothing to fold, as in the loop). *)
Fixpoint run_cov (i : nat) : 'M[F]_k :=
  if i is j.+1 then
    if n0 + j%:Z == 0 then run_cov j
    else ((nplus n0 j - 1) / nplus n0 j) *: run_cov j + nth 0 B j
  else proj_cov0.

(* The inverse computed directly from the running covariance. *)
Definition direct_inverse (i : nat) : 'M[F]_k := invmx (run_cov i).

(* No inverse has been produced up to and including row i: after the
   iterations 0..i the variable c_inv is still None. *)
Definition no_inverse_upto (i : nat) : bool :=
  if inv_loop n0 B (iota 0 i.+1) (loop_init B proj_cov0) is Ok ls
  then ~~ isSome (c_inv ls) else false.

(* Row i0 produces the seed inverse: c_inv is None when the iteration
   starts and the determinant test succeeds. *)
Definition seed_row (i0 : nat) : bool :=
  if inv_loop n0 B (iota 0 i0) (loop_init B proj_cov0) is Ok ls
  then ~~ isSome (c_inv ls) && (EPSILON < `|\det (proj_cov ls)|)
  else false.

End RunningCovariance.

(* The quadratic form v A v^T of a square matrix. *)
Definition qform k (A : 'M[F]_k) (v : 'rV[F]_k) : F := (v *m A *m v^T) 0 0.

(* Symmetric positive semi-definite, and positive definite, matrices. *)
Definition psd k (A : 'M[F]_k) : Prop :=
  A^T = A /\ forall v, 0 <= qform A v.

Definition pd k (A : 'M[F]_k) : Prop :=
  A^T = A /\ forall v, v != 0 -> 0 < qform A v.

(* What the covariance of a detector satisfies in every state it reaches:
   it is positive semi-definite, it is still the int 0 while n = 0, and it
   is the zero matrix while n <= 1. *)
Definition cov_inv (self : detector) : Prop :=
  [/\ psd (C_val self), n self = 0%N -> C self = None
    & (n self <= 1)%N -> C_val self = 0].

(* --------------------------------------------------------------------- *)
(* Notions for the properties of runs                                    *)
(* --------------------------------------------------------------------- *)

(* The rows a run has absorbed: those of the batches whose call returned,
   in the order of the calls. *)
Fixpoint absorbed (batches : seq (seq 'rV[F]_p)) (self : detector)
    : seq 'rV[F]_p :=
  if batches is X :: batches' then
    (if is_ok (_get_preds X self).1 then X else [::])
      ++ absorbed batches' (_get_preds X self).2
  else [::].

(* stdev = np.sqrt(np.diag(C)) for the covariance the object holds. *)
Definition stdev_of (self : detector) : 'rV[F]_p :=
  \row_j sqrt (C_val self j j).

(* What the clip bounds of a detector satisfy in every state it reaches:
   they exist only once n exceeds start_clip, and they are the mean plus
   and minus n_stdev standard deviations of the state itself. *)
Definition clip_inv (self : detector) : Prop :=
  forall lo hi, clip self = Some (lo, hi) ->
    [/\ start_clip self < (n self)%:Z,
        lo = mean self - n_stdev self *: stdev_of self
      & hi = mean self + n_stdev self *: stdev_of self].

(* The covariance is the integer 0 exactly while n = 0, and its rank is
   below the number of rows absorbed. *)
Definition rank_inv (self : detector) : Prop :=
  (C self = None <-> n self = 0%N)
  /\ (\rank (C_val self) <= (n self).-1)%N.

(* Everything a detector holds but threshold and the labels of the last
   call. *)
Definition statistics (self : detector) :=
  (n_components self, max_n self, n_stdev self, start_clip self,
   clip self, mean self, C self, n self, score self).

(* The batches of a run whose call returned, in the order of the calls. *)
Fixpoint returned (batches : seq (seq 'rV[F]_p)) (self : detector)
    : seq (seq 'rV[F]_p) :=
  if batches is X :: batches' then
    (if is_ok (_get_preds X self).1 then [:: X] else [::])
      ++ returned batches' (_get_preds X self).2
  else [::].

End CoreMahalanobis.

(* --------------------------------------------------------------------- *)
(* A concrete setting: one feature, rational scalars                      *)
(* --------------------------------------------------------------------- *)

(* A one-feature observation. *)
Definition row1 (a : rat) : 'rV[rat]_1 := a%:M.

(* With one feature the only unit eigenvector is [[1.]], whatever the
   matrix and the range asked for. *)
Definition eigh1 (k : nat) (r : int * int) (A : 'M[rat]_1)
    : result 'M[rat]_(1, k) :=
  Ok (const_mx 1).

(* An eigendecomposition that fails to converge, and one that rejects
   its input. *)
Definition eigh_raises (k : nat) (r : int * int) (A : 'M[rat]_1)
    : result 'M[rat]_(1, k) :=
  Raise LinAlgError.

Definition eigh_rejects (k : nat) (r : int * int) (A : 'M[rat]_1)
    : result 'M[rat]_(1, k) :=
  Raise ValueError.

(* An eigendecomposition that returns only on the matrix A0, and one that
   returns only for the index range r0. *)
Definition eigh_only_at (A0 : 'M[rat]_1) (k : nat) (r : int * int)
    (A : 'M[rat]_1) : result 'M[rat]_(1, k) :=
  if A == A0 then Ok (const_mx 1) else Raise LinAlgError.

Definition eigh_only_for (r0 : int * int) (k : nat) (r : int * int)
    (A : 'M[rat]_1) : result 'M[rat]_(1, k) :=
  if r == r0 then Ok (const_mx 1) else Raise ValueError.

(* np.sqrt on the rationals, where a square root exists for the squares
   only: the quotient of the integer square roots of numerator and
   denominator. It is np.sqrt on the squares of rationals and nowhere
   else (it gives 1 at 2); the runs below store a value of it, in
   self.clip, at the variance 1 only. *)
Definition isqrt (m : nat) : nat :=
  find (fun r => (m < r.+1 * r.+1)%N) (iota 0 m.+1).

Definition sqrtq (x : rat) : rat :=
  (isqrt `|numq x|)%:R / (isqrt `|denq x|)%:R.

(* CoreMahalanobis() with the default arguments, and
   CoreMahalanobis(max_n=1). *)
Definition fresh : detector rat 1 :=
  {| threshold := 25%:R; n_components := 3; max_n := -1; n_stdev := 3%:R;
     start_clip := 50%:Z; clip := None; mean := 0; C := None; n := 0;
     score := [::]; prediction := [::] |}.

Definition fresh_cap1 : detector rat 1 :=
  {| threshold := 25%:R; n_components := 3; max_n := 1; n_stdev := 3%:R;
     start_clip := 50%:Z; clip := None; mean := 0; C := None; n := 0;
     score := [::]; prediction := [::] |}.

(* Two observations, fed in two calls of one row each and in one call. *)
Definition two_points : seq 'rV[rat]_1 := [:: row1 0; row1 2].

Definition fed_one_by_one : detector rat 1 :=
  process_all eigh1 sqrtq [:: [:: row1 0]; [:: row1 2]] fresh.

Definition fed_at_once : detector rat 1 :=
  process_all eigh1 sqrtq [:: two_points] fresh.

(* The object CoreMahalanobis(max_n=1) is left in by a first call on
   two_points, and the eigenvectors of its next call. *)
Definition seed_state : detector rat 1 :=
  {| threshold := 25%:R; n_components := 3; max_n := 1; n_stdev := 3%:R;
     start_clip := 50%:Z; clip := None; mean := row1 1; C := Some 2%:M;
     n := 2; score := [:: 0; 0]; prediction := [:: 0%N; 0%N] |}.

Definition seed_V : 'M[rat]_(1, n_comp seed_state) := const_mx 1.

(* The object CoreMahalanobis() is left in by a first call on two_points,
   and the eigenvectors of its next call. *)
Definition warm_state : detector rat 1 :=
  {| threshold := 25%:R; n_components := 3; max_n := -1; n_stdev := 3%:R;
     start_clip := 50%:Z; clip := None; mean := row1 1; C := Some 2%:M;
     n := 2; score := [:: 0; 0]; prediction := [:: 0%N; 0%N] |}.

Definition warm_V : 'M[rat]_(1, n_comp warm_state) := const_mx 1.

(* Four observations, fed in two calls of two rows and in one call. *)
Definition four_points : seq 'rV[rat]_1 := two_points ++ two_points.

(* Two batches of one row. *)
Definition one_by_one : seq (seq 'rV[rat]_1) := [:: [:: row1 0]; [:: row1 2]].

(* Three rows of sample mean 1 and sample variance 1. *)
Definition three_points : seq 'rV[rat]_1 := [:: row1 0; row1 1; row1 2].

(* CoreMahalanobis(start_clip=1), the object a first call on three_points
   leaves it in (row 2 produces the seed inverse 2 and scores
   1.5 * 2 * 1.5), with its clip bounds 1 - 3*sqrt(1) and 1 + 3*sqrt(1),
   and a batch with a row outside them. *)
Definition fresh_clip1 : detector rat 1 :=
  {| threshold := 25%:R; n_components := 3; max_n := -1; n_stdev := 3%:R;
     start_clip := 1; clip := None; mean := 0; C := None; n := 0;
     score := [::]; prediction := [::] |}.

Definition clipping_state : detector rat 1 :=
  {| threshold := 25%:R; n_components := 3; max_n := -1; n_stdev := 3%:R;
     start_clip := 1; clip := Some (row1 (-2%:R), row1 4%:R);
     mean := row1 1; C := Some 1%:M;
     n := 3; score := [:: 0; 0; 9%:R / 2%:R];
     prediction := [:: 0%N; 0%N; 0%N] |}.

Definition far_points : seq 'rV[rat]_1 := [:: row1 0; row1 9%:R].

(* CoreMahalanobis(start_clip=-1). *)
Definition fresh_negative : detector rat 1 :=
  {| threshold := 25%:R; n_components := 3; max_n := -1; n_stdev := 3%:R;
     start_clip := -1; clip := None; mean := 0; C := None; n := 0;
     score := [::]; prediction := [::] |}.

(* A two-feature observation; CoreMahalanobis(n_components=2) on two
   features; three rows whose covariance is diagonal with the larger
   variance on the first feature, so that the unit eigenvectors, in
   ascending order of eigenvalue, are the two axes, the second first. *)
Definition row2 (a b : rat) : 'rV[rat]_2 :=
  \row_j (if j == 0 then a else b).

Definition fresh_plane : detector rat 2 :=
  {| threshold := 25%:R; n_components := 2; max_n := -1; n_stdev := 3%:R;
     start_clip := 50%:Z; clip := None; mean := 0; C := None; n := 0;
     score := [::]; prediction := [::] |}.

Definition triangle : seq 'rV[rat]_2 :=
  [:: row2 0 0; row2 139%:R 122%:R; row2 (- 139%:R) 122%:R].

Definition eigh_axes (k : nat) (r : int * int) (A : 'M[rat]_2)
    : result 'M[rat]_(2, k) :=
  Ok (\matrix_(i, j) (i != j :> nat)%:R).

Definition axes_V : 'M[rat]_(2, n_comp fresh_plane) :=
  \matrix_(i, j) (i != j :> nat)%:R.

(* CoreMahalanobis(threshold=30). *)
Definition fresh_strict : detector rat 1 :=
  {| threshold := 30%:R; n_components := 3; max_n := -1; n_stdev := 3%:R;
     start_clip := 50%:Z; clip := None; mean := 0; C := None; n := 0;
     score := [::]; prediction := [::] |}.

(* ===================================================================== *)
(* Properties of the embedding                                            *)
(* ===================================================================== *)
Section Theory.

Variable F : realFieldType.
Variable p : nat.
Variable eigh :
  forall k : nat, int * int -> 'M[F]_p -> result 'M[F]_(p, k).
Variable sqrt : F -> F.

Implicit Types (self : detector F p) (X Xclip : seq 'rV[F]_p).

Lemma EPSILON_def : EPSILON F = (10%:R ^+ 8)^-1.
Proof. by rewrite /EPSILON -lock. Qed.

(* --------------------------------------------------------------------- *)
(* Sizes of the intermediate arrays                                       *)
(* --------------------------------------------------------------------- *)

Lemma size_np_clip X lo hi : size (np_clip X lo hi) = size X.
Proof. by rewrite /np_clip size_map. Qed.

Lemma size_get_Xclip self X Xclip :
  get_Xclip self X = Ok Xclip -> size Xclip = size X.
Proof.
rewrite /get_Xclip; case: ifP => _; last by case=> <-.
by case: (clip self) => [[lo hi]|] // [<-]; rewrite size_np_clip.
Qed.

Lemma size_new_means m0 n0 X : size (new_means m0 n0 X) = size X.
Proof. by rewrite /new_means size_mkseq. Qed.


Lemma size_get_score k (x_diff : seq 'rV[F]_k) inverses :
  size (get_score x_diff inverses) = size x_diff.
Proof. by rewrite /get_score size_mkseq. Qed.

Lemma size_score_of self X Xclip V inverses :
  size (@score_of _ _ self X Xclip V inverses) = size X.
Proof. by rewrite /score_of size_get_score /rows_sub size_mkseq size_map. Qed.

Lemma size_get_prediction (th : F) sc : size (get_prediction th sc) = size sc.
Proof. by rewrite /get_prediction size_map. Qed.

(* --------------------------------------------------------------------- *)
(* The run of _get_preds, case by case                                    *)
(* --------------------------------------------------------------------- *)

Lemma _get_predsE X self :
  _get_preds eigh sqrt X self =
    match get_Xclip self X with
    | Raise e => (Raise e, self)
    | Ok Xclip =>
        if size X is 0%N then (Raise IndexError, self)
        else
          match eigh (n_comp self) (eigvals_range p (n_comp self))
                  (cov_batch_of self Xclip) with
          | Raise e => (Raise e, self)
          | Ok V =>
              match run_loop_of Xclip V with
              | Raise e => (Raise e, self)
              | Ok ls =>
                  (Ok (get_prediction (threshold self)
                         (score_of X Xclip V (all_C_inv ls))),
                   commit sqrt X Xclip V (all_C_inv ls))
              end
          end
    end.
Proof.
rewrite /_get_preds /bind /get /lift /=.
case: (get_Xclip self X) => [Xclip|e] //.
case EnX: (size X) => [|nb] //=.
rewrite -/(n_comp self) -/(cov_batch_of self Xclip).
case: (eigh _ _ _) => [V|e2] //=.
rewrite -/(means_offset_of self Xclip) -/(inv_B_of Xclip V).
rewrite -/(run_loop_of Xclip V).
case: (run_loop_of Xclip V) => [ls|e] //=.
by rewrite /commit EnX; case: ifP.
Qed.

(* A call that raises leaves the object as it found it: every assignment
   to self comes after the last statement that can raise. *)
Lemma raise_leaves_state X self (e : exn) :
  (_get_preds eigh sqrt X self).1 = Raise e -> (_get_preds eigh sqrt X self).2 = self.
Proof.
rewrite _get_predsE.
case: (get_Xclip self X) => [Xclip|e1] //.
case: (size X) => [|nb] //.
case: (eigh _ _ _) => [V|e2] //.
by case: (run_loop_of Xclip V).
Qed.

(* The configuration never changes. *)
Lemma config_preserved X self :
  let self' := (_get_preds eigh sqrt X self).2 in
  [/\ threshold self' = threshold self,
      n_components self' = n_components self,
      max_n self' = max_n self,
      n_stdev self' = n_stdev self
    & start_clip self' = start_clip self].
Proof.
rewrite /= _get_predsE.
case: (get_Xclip self X) => [Xclip|e1] //.
case: (size X) => [|nb] //.
case: (eigh _ _ _) => [V|e2] //.
by case: (run_loop_of Xclip V).
Qed.

Lemma reachable_start_clip self0 self :
  reachable eigh sqrt self0 self -> start_clip self = start_clip self0.
Proof.
elim=> [|s X _ IH] //.
by have [_ _ _ _ ->] := config_preserved X s.
Qed.

(* --------------------------------------------------------------------- *)
(* Clipping policy                                                        *)
(* --------------------------------------------------------------------- *)

(* One call keeps "clip is set exactly when n exceeds start_clip". *)
Lemma clip_step X self :
  isSome (clip self) = (start_clip self < (n self)%:Z) ->
  let self' := (_get_preds eigh sqrt X self).2 in
  isSome (clip self') = (start_clip self' < (n self')%:Z).
Proof.
move=> inv /=; rewrite _get_predsE.
case: (get_Xclip self X) => [Xclip|e1] //.
case: (size X) => [|nb] //.
case: (eigh _ _ _) => [V|e2] //.
case: (run_loop_of Xclip V) => [ls|e] //=.
case: ifP => [//|lt_n1]; rewrite inv; apply: negbTE.
rewrite -leNgt; apply: (@le_trans _ _ (n self + size X)%N%:Z).
  by rewrite lez_nat leq_addr.
by rewrite leNgt lt_n1.
Qed.

(* The invariant behind the clipping policy, from a constructor call with
   a non-negative start_clip. *)
Lemma clip_reachable (th : F) nc ns (sc mx : int) self0 self :
  0 <= sc -> init p th nc ns sc mx = Ok self0 ->
  reachable eigh sqrt self0 self ->
  isSome (clip self) = (start_clip self < (n self)%:Z).
Proof.
move=> sc_ge0 [<-] {self0}; elim=> [|s X _ IH] /=; last exact: clip_step.
by rewrite ltNge sc_ge0.
Qed.

(* At n = 0 there are no bounds to clip with, whatever start_clip is:
   only a call that raised nothing increases n, and only such a call
   assigns self.clip. *)
Lemma clip_none_at_zero (th : F) nc ns (sc mx : int) self0 self :
  init p th nc ns sc mx = Ok self0 -> reachable eigh sqrt self0 self ->
  n self = 0%N -> clip self = None.
Proof.
move=> [<-] {self0}; elim=> [|s X _ IH] //=.
rewrite _get_predsE.
case: (get_Xclip s X) => [Xclip|e1] //.
case EnX: (size X) => [|nb] //.
case: (eigh _ _ _) => [V|e2] //.
case: (run_loop_of Xclip V) => [ls|e] //=.
by rewrite EnX addnS.
Qed.

(* --------------------------------------------------------------------- *)
(* The rank-one update of an inverse                                      *)
(* --------------------------------------------------------------------- *)
Section RankOne.

Variable k : nat.
Implicit Types (A Ai : 'M[F]_k) (u : 'cV[F]_k) (v : 'rV[F]_k).




End RankOne.

(* --------------------------------------------------------------------- *)
(* The loop over the rows                                                 *)
(* --------------------------------------------------------------------- *)
Section LoopTheory.

Variable k : nat.
Implicit Types (B : seq 'M[F]_k) (ls : loop_state F k) (P : 'M[F]_k).

Lemma inv_loop_cat n0 B r1 r2 ls :
  inv_loop n0 B (r1 ++ r2) ls
  = rbind (inv_loop n0 B r1 ls) (inv_loop n0 B r2).
Proof.
elim: r1 ls => [|i r1 IH] ls //=.
by case: (inv_step n0 B i ls) => [ls'|e] /=.
Qed.

(* An iteration that ends with c_inv still None began with it None and
   wrote nothing to all_C_inv. *)
Lemma inv_step_None n0 B i ls ls' :
  inv_step n0 B i ls = Ok ls' -> c_inv ls' = None ->
  c_inv ls = None /\ all_C_inv ls' = all_C_inv ls.
Proof.
rewrite /inv_step; case: (c_inv ls) => [c|].
  by case: ifP => // _ [<-].
case: ifP => _; first by case=> <-.
by case: ifP => _ [<-].
Qed.

Lemma inv_loop_None n0 B rows ls ls' :
  inv_loop n0 B rows ls = Ok ls' -> c_inv ls' = None ->
  c_inv ls = None /\ all_C_inv ls' = all_C_inv ls.
Proof.
elim: rows ls => [|i rows IH] ls /=; first by case=> ->.
case E: (inv_step n0 B i ls) => [ls1|e] //= run1 none'.
have [none1 eq1] := IH _ run1 none'.
by have [-> <-] := inv_step_None E none1.
Qed.

(* Iteration j writes all_C_inv at index j only. *)
Lemma inv_step_nth n0 B i j ls ls' :
  inv_step n0 B j ls = Ok ls' -> i != j ->
  nth 0 (all_C_inv ls') i = nth 0 (all_C_inv ls) i.
Proof.
rewrite /inv_step => + ne_ij; case: (c_inv ls) => [c|].
  by case: ifP => // _ [<-] /=; rewrite nth_set_nth /= (negbTE ne_ij).
case: ifP => _; first by case=> <- /=; rewrite nth_set_nth /= (negbTE ne_ij).
by case: ifP => _ [<-].
Qed.

Lemma inv_loop_nth n0 B i rows ls ls' :
  inv_loop n0 B rows ls = Ok ls' -> i \notin rows ->
  nth 0 (all_C_inv ls') i = nth 0 (all_C_inv ls) i.
Proof.
elim: rows ls => [|j rows IH] ls /=; first by case=> ->.
case E: (inv_step n0 B j ls) => [ls1|e] //= run1.
rewrite inE negb_or => /andP[ne_ij notin].
by rewrite (IH _ run1 notin) (inv_step_nth E ne_ij).
Qed.

Lemma iota_split (i nb : nat) :
  (i < nb)%N -> iota 0 nb = iota 0 i.+1 ++ iota i.+1 (nb - i.+1).
Proof. by move=> lt_i; rewrite -[in LHS](subnKC lt_i) iotaD. Qed.

(* A row that ends with no inverse produced keeps its zero matrix to the
   end of the loop. *)
Lemma no_inverse_zero n0 B P i ls :
  (i < size B)%N -> run_loop n0 B P = Ok ls ->
  no_inverse_upto n0 B P i -> nth 0 (all_C_inv ls) i = 0.
Proof.
move=> lt_i; rewrite /run_loop /no_inverse_upto (iota_split lt_i).
rewrite inv_loop_cat.
case E: (inv_loop n0 B (iota 0 i.+1) _) => [ls_i|e] //= run2.
case none_i: (c_inv ls_i) => [c|] // _.
have [_ eq_i] := inv_loop_None E none_i.
rewrite (inv_loop_nth run2) ?eq_i /= ?nth_nseq ?if_same //.
by rewrite mem_iota ltnn.
Qed.



(* While no inverse has been produced, the loop's proj_cov is the running
   covariance and all_C_inv is still all zeros. *)
Lemma proj_cov_run_cov n0 B P i ls :
  inv_loop n0 B (iota 0 i) (loop_init B P) = Ok ls -> c_inv ls = None ->
  proj_cov ls = run_cov n0 B P i /\ all_C_inv ls = nseq (size B) 0.
Proof.
elim: i ls => [|i IH] ls; first by case=> <-.
rewrite -addn1 iotaD add0n inv_loop_cat /=.
case E: (inv_loop n0 B (iota 0 i) _) => [ls1|e] //=.
case E1: (inv_step n0 B i ls1) => [ls2|e] //= [<-] none2.
have [none1 all1] := inv_step_None E1 none2.
have [pc1 all0] := IH _ E none1; rewrite all1 all0; split=> //.
move: E1 none2; rewrite /inv_step none1 addn1 /=.
case: ifP => _; first by case=> <-.
by case: ifP => _ [<-] /=; rewrite pc1.
Qed.

(* The running covariance is invertible at a seed row, and the seed row
   stores its inverse. *)
Lemma seed_row_inverse n0 B P i0 :
  seed_row n0 B P i0 ->
  run_cov n0 B P i0 \in unitmx /\
  exists ls, [/\ inv_loop n0 B (iota 0 i0.+1) (loop_init B P) = Ok ls,
                 isSome (c_inv ls)
               & nth 0 (all_C_inv ls) i0 = invmx (run_cov n0 B P i0)].
Proof.
rewrite /seed_row -[in X in _ -> _ /\ X]addn1 iotaD add0n.
case E: (inv_loop n0 B (iota 0 i0) _) => [ls0|e] //.
case none0: (c_inv ls0) => [c|] //= det_gt.
have [pc0 _] := proj_cov_run_cov E none0.
split.
  rewrite unitmxE unitfE -pc0 -normr_gt0; apply: lt_trans det_gt.
  by rewrite EPSILON_def invr_gt0 exprn_gt0 // ltr0n.
rewrite inv_loop_cat E /= /inv_step none0 det_gt /=.
eexists; split; first by [].
  by [].
by rewrite /= nth_set_nth /= eqxx pc0.
Qed.



(* Once c_inv is set, the remaining iterations raise only at n + i = 2. *)
Lemma inv_loop_Some n0 B rows ls :
  isSome (c_inv ls) -> {in rows, forall j : nat, n0 + j%:Z - 2 != 0} ->
  exists ls', inv_loop n0 B rows ls = Ok ls'.
Proof.
elim: rows ls => [|j rows IH] ls some_c ne2 /=; first by exists ls.
rewrite {1}/inv_step; case: (c_inv ls) some_c => [c|] // _.
rewrite (negbTE (ne2 j _)) ?mem_head //=.
by apply: IH => // j' in_rows; apply: ne2; rewrite inE in_rows orbT.
Qed.


End LoopTheory.

(* The increments of the inverse loop are rank-one matrices. *)
Lemma inv_B_rank_one k (n0 : int) (xs ms : seq 'rV[F]_k) (j : nat) :
  exists (u : 'cV[F]_k) (v : 'rV[F]_k), nth 0 (inv_B n0 xs ms) j = u *m v.
Proof.
rewrite /inv_B; case: (ltnP j (size xs)) => [lt_j|ge_j].
  rewrite nth_mkseq //=; set d := _ - _.
  by exists ((1 / (nplus F n0 j + 1)) *: d^T), d; rewrite -scalemxAl.
by exists 0, 0; rewrite nth_default ?size_mkseq // mulmx0.
Qed.

(* --------------------------------------------------------------------- *)
(* Calls that return                                                      *)
(* --------------------------------------------------------------------- *)

Lemma EPSILON_gt0 : 0 < EPSILON F.
Proof. by rewrite EPSILON_def invr_gt0 exprn_gt0 // ltr0n. Qed.

Lemma EPSILON_lt1 : EPSILON F < 1.
Proof.
rewrite EPSILON_def invf_lt1 ?exprn_gt0 ?ltr0n //.
by rewrite exprn_egt1 // ltr1n.
Qed.

Lemma EPSILON_lt_half : EPSILON F < 2^-1.
Proof.
rewrite EPSILON_def ltf_pV2 ?posrE ?exprn_gt0 ?ltr0n //.
apply: lt_le_trans (_ : 10%:R <= _); first by rewrite ltr_nat.
by rewrite -[X in X <= _]expr1 ler_weXn2l // ler1n.
Qed.

(* Iteration 0 never raises: c_inv is None when the loop starts. *)
Lemma run_loop_single k (n0 : int) (B : seq 'M[F]_k) (P : 'M[F]_k) :
  size B = 1%N -> exists ls, run_loop n0 B P = Ok ls.
Proof.
move=> sz; rewrite /run_loop sz /= /inv_step /=.
case: ifP => _; first by eexists.
by case: ifP => _; eexists.
Qed.

(* A call on an unclipped, non-empty batch whose eigendecomposition and
   inverse loop succeed returns the labels and commits the new state. *)
Lemma call_returns self X Xclip V ls :
  get_Xclip self X = Ok Xclip -> X != [::] ->
  eigh (n_comp self) (eigvals_range p (n_comp self))
      (cov_batch_of self Xclip) = Ok V ->
  run_loop_of Xclip V = Ok ls ->
  _get_preds eigh sqrt X self
  = (Ok (get_prediction (threshold self)
           (score_of X Xclip V (all_C_inv ls))),
     commit sqrt X Xclip V (all_C_inv ls)).
Proof.
move=> E1 nonempty E2 E3; rewrite _get_predsE E1 E2 E3.
by case: X nonempty {E1}.
Qed.

Lemma unclipped self X :
  (n self)%:Z <= start_clip self -> get_Xclip self X = Ok X.
Proof. by rewrite /get_Xclip leNgt => /negbTE->. Qed.

(* The moments of a single-row batch: the covariance is rescaled with the
   divisor n + 1 that max(1, nb - 1) gives at nb = 1. *)
Lemma new_means_single (m x : 'rV[F]_p) (n0 : int) :
  new_means m n0 [:: x] = [:: m + (1 / (n0%:~R + 1)) *: (x - m)].
Proof.
rewrite /new_means /roll_partial_means /mkseq /= big_seq1 /nplus /=.
by rewrite addr0 invr1 scale1r.
Qed.

Lemma cov_batch_single (m x : 'rV[F]_p) (C0 : 'M[F]_p) (n0 : int) :
  cov_batch m C0 n0 [:: x]
  = ((n0%:~R - 1) / (n0%:~R + 1)) *: C0
    + (1 / (n0%:~R + 1)) *:
        ((n0%:~R / (n0%:~R + 1)) *: ((x - m)^T *m (x - m))).
Proof.
rewrite /cov_batch /cov_B /new_means_offset /new_means /roll_partial_means.
by rewrite /= big_seq1 /nplus /= addr0.
Qed.

Lemma det0_pos k : (0 < k)%N -> \det (0 : 'M[F]_k) = 0.
Proof. by case: k => // k _; rewrite det0. Qed.

(* No seed on a zero covariance. *)
Lemma inv_step_zero_cov k (n0 : int) (B : seq 'M[F]_k) i (zeros : seq 'M[F]_k) :
  (0 < k)%N ->
  inv_step n0 B i (LoopState None 0 zeros)
  = Ok (if n0 + i%:Z == 0 then LoopState None 0 zeros
        else LoopState None
               (((nplus F n0 i - 1) / nplus F n0 i) *: 0 + nth 0 B i) zeros).
Proof.
move=> k_gt0; rewrite /inv_step /= det0_pos // normr0.
by rewrite ltNge (ltW EPSILON_gt0) /=; case: ifP.
Qed.

Lemma effective_n0 self : n self = 0%N -> effective_n self = 0.
Proof.
rewrite /effective_n => ->; case: ifP => // /ltW max_ge0.
by rewrite min_l.
Qed.

(* The first call of a detector, on two rows. *)
Lemma two_row_first_call self (x1 x2 : 'rV[F]_p) V :
  n self = 0%N -> C self = None -> 2 <= start_clip self ->
  (0 < n_comp self)%N -> 0 <= threshold self ->
  eigh (n_comp self) (eigvals_range p (n_comp self))
      (cov_batch_of self [:: x1; x2]) = Ok V ->
  _get_preds eigh sqrt [:: x1; x2] self
  = (Ok [:: 0%N; 0%N],
     {| threshold := threshold self; n_components := n_components self;
        max_n := max_n self; n_stdev := n_stdev self;
        start_clip := start_clip self; clip := clip self;
        mean := last (mean self) (new_means (mean self) 0 [:: x1; x2]);
        C := Some (cov_batch (mean self) 0 0 [:: x1; x2]);
        n := 2; score := [:: 0; 0]; prediction := [:: 0%N; 0%N] |}).
Proof.
move=> n0 C0 sc_ge2 k_gt0 th_ge0 E2.
have E1 : get_Xclip self [:: x1; x2] = Ok [:: x1; x2].
  by apply: unclipped; rewrite n0; apply: le_trans sc_ge2.
have E3 : run_loop_of [:: x1; x2] V
          = Ok (LoopState None
                  (((nplus F 0 1 - 1) / nplus F 0 1) *: 0
                   + nth 0 (inv_B_of [:: x1; x2] V) 1)
                  [:: 0; 0]).
  rewrite /run_loop_of /run_loop /loop_init C0 (effective_n0 n0) /=.
  by rewrite inv_step_zero_cov //= inv_step_zero_cov.
rewrite (call_returns E1 _ E2 E3) //; congr (_, _).
  rewrite /score_of /get_score /rows_sub /mkseq /= !mul0mx !mulmx0 !mxE.
  by rewrite ltNge th_ge0.
rewrite /commit /score_of /get_score /rows_sub /mkseq /= !mul0mx !mulmx0 !mxE.
rewrite [threshold self < 0]ltNge th_ge0 /= n0 add0n.
rewrite [start_clip self < _]ltNge sc_ge2 /= /cov_batch_of (effective_n0 n0).
by rewrite /C_val C0.
Qed.

(* A call on a single row, before clipping starts: the object it leaves
   (score and prediction are those of the row). *)
Lemma single_row_state self (x : 'rV[F]_p) V :
  (n self).+1%:Z <= start_clip self ->
  eigh (n_comp self) (eigvals_range p (n_comp self))
      (cov_batch_of self [:: x]) = Ok V ->
  exists sc pr,
    _get_preds eigh sqrt [:: x] self
    = (Ok pr,
       {| threshold := threshold self; n_components := n_components self;
          max_n := max_n self; n_stdev := n_stdev self;
          start_clip := start_clip self; clip := clip self;
          mean := mean self
                  + (1 / ((effective_n self)%:~R + 1)) *: (x - mean self);
          C := Some (cov_batch (mean self) (C_val self) (effective_n self)
                       [:: x]);
          n := (n self).+1; score := sc; prediction := pr |}).
Proof.
move=> le_n E2.
have E1 : get_Xclip self [:: x] = Ok [:: x].
  by apply: unclipped; apply: le_trans le_n; rewrite lez_nat.
have [ls E3] : exists ls, run_loop_of [:: x] V = Ok ls.
  by apply: run_loop_single; rewrite /inv_B_of /inv_B size_mkseq.
rewrite (call_returns E1 _ E2 E3) //; do 2!eexists; congr (_, _).
rewrite /commit /means_of new_means_single /= addn1.
by rewrite [start_clip self < _]ltNge le_n.
Qed.

(* The first row a detector ever sees produces no inverse. *)
Lemma first_row_no_inverse self (x : 'rV[F]_p)
    (V : 'M[F]_(p, n_comp self)) :
  n self = 0%N -> C self = None -> (0 < n_comp self)%N ->
  run_loop_of [:: x] V = Ok (LoopState None 0 [:: 0])
  /\ no_inverse_upto (effective_n self) (inv_B_of [:: x] V)
                     (get_proj_cov (C self) V) 0.
Proof.
move=> n0 C0 k_gt0.
rewrite /no_inverse_upto /run_loop_of /run_loop /loop_init C0 /=.
by rewrite (effective_n0 n0) inv_step_zero_cov.
Qed.

(* --------------------------------------------------------------------- *)
(* The moment updates against the sample statistics                       *)
(* --------------------------------------------------------------------- *)
Section Welford.

Implicit Types (xs ys : seq 'rV[F]_p) (x c : 'rV[F]_p).

Lemma sample_covE xs : sample_cov xs = ((size xs)%:R - 1)^-1 *: scatter xs.
Proof. by []. Qed.

Lemma sum_const_seq (V : lmodType F) (T : Type) (s : seq T) (v : V) :
  \sum_(x <- s) v = (size s)%:R *: v.
Proof.
by rewrite big_const_seq count_predT iter_addr_0 scaler_nat.
Qed.

Lemma sum_sample_mean xs : (size xs)%:R *: sample_mean xs = \sum_(x <- xs) x.
Proof.
rewrite /sample_mean; case: xs => [|x xs]; first by rewrite big_nil !scaler0.
by rewrite scalerA divff ?scale1r // pnatr_eq0.
Qed.

Lemma sum_dev0 xs : \sum_(x <- xs) (x - sample_mean xs) = 0.
Proof.
by rewrite big_split /= sumrN sum_const_seq sum_sample_mean subrr.
Qed.

(* The scatter about any point c. *)
Lemma scatter_shift xs c :
  \sum_(x <- xs) (x - c)^T *m (x - c)
  = scatter xs
    + (size xs)%:R *: ((sample_mean xs - c)^T *m (sample_mean xs - c)).
Proof.
set m := sample_mean xs; set e := m - c.
have expand x : (x - c)^T *m (x - c)
    = (x - m)^T *m (x - m) + ((x - m)^T *m e + (e^T *m (x - m) + e^T *m e)).
  have -> : x - c = (x - m) + e by rewrite /e addrA subrK.
  by rewrite [(_ + e)^T]linearD /= mulmxDl !mulmxDr -!addrA.
rewrite (eq_bigr _ (fun x _ => expand x)) !big_split /=.
have -> : \sum_(i <- xs) (i - m)^T *m e = 0.
  by rewrite -mulmx_suml -raddf_sum /= sum_dev0 trmx0 mul0mx.
have -> : \sum_(i <- xs) e^T *m (i - m) = 0.
  by rewrite -mulmx_sumr sum_dev0 mulmx0.
by rewrite sum_const_seq !add0r.
Qed.

Lemma sample_mean_rcons xs x :
  sample_mean (rcons xs x)
  = sample_mean xs + ((size xs)%:R + 1)^-1 *: (x - sample_mean xs).
Proof.
rewrite /sample_mean size_rcons -cats1 big_cat big_seq1 /= -natr1.
case: xs => [|y ys].
  by rewrite big_nil /= add0r invr0 scale0r subr0 !add0r.
set S := \sum_(i <- _) i; set n := (size (y :: ys))%:R.
have n_neq0 : n != 0 :> F by rewrite pnatr_eq0.
have n1_neq0 : n + 1 != 0 :> F by rewrite natr1 pnatr_eq0.
by apply/rowP=> j; rewrite !mxE; field.
Qed.

(* One more observation: the scatter grows by n/(n+1) d^T d. *)
Lemma scatter_rcons xs x :
  scatter (rcons xs x)
  = scatter xs
    + ((size xs)%:R / ((size xs)%:R + 1))
        *: ((x - sample_mean xs)^T *m (x - sample_mean xs)).
Proof.
rewrite {1}/scatter -cats1 big_cat big_seq1 /= cats1 scatter_shift.
rewrite sample_mean_rcons; set m := sample_mean xs; set d := x - m.
set n := (size xs)%:R.
have n1_neq0 : n + 1 != 0 :> F by rewrite natr1 pnatr_eq0.
have -> : m - (m + (n + 1)^-1 *: d) = - (n + 1)^-1 *: d.
  by rewrite opprD addrA subrr add0r scaleNr.
have -> : x - (m + (n + 1)^-1 *: d) = (n / (n + 1)) *: d.
  rewrite opprD addrA -/d -[X in X - _]scale1r -scalerBl; congr (_ *: _).
  by field.
rewrite !linearZ /= -!scalemxAl !scalerA -addrA -scalerDl.
by congr (_ + _ *: _); field.
Qed.


Lemma nplus_nat (n i : nat) : nplus F n%:Z i = n%:R + i%:R.
Proof. by rewrite /nplus rmorphD /= -!pmulrn. Qed.

Lemma sample_mean_cat xs ys :
  ys != [::] ->
  sample_mean (xs ++ ys)
  = sample_mean xs
    + ((size ys)%:R / ((size xs)%:R + (size ys)%:R))
        *: (((size ys)%:R)^-1 *: (\sum_(y <- ys) y) - sample_mean xs).
Proof.
case: ys => [|y ys] // _; rewrite {1}/sample_mean size_cat big_cat /= natrD.
set S2 := \sum_(i <- y :: ys) i; set b := (size (y :: ys))%:R.
have b_neq0 : b != 0 :> F by rewrite pnatr_eq0.
case: xs => [|x xs].
  rewrite /sample_mean big_nil /= add0r invr0 scale0r subr0 !add0r.
  by rewrite divff // scale1r.
rewrite /sample_mean; set S1 := \sum_(i <- x :: xs) i.
set n := (size (x :: xs))%:R.
have n_neq0 : n != 0 :> F by rewrite pnatr_eq0.
have nb_neq0 : n + b != 0 :> F by rewrite -natrD pnatr_eq0.
by apply/rowP=> j; rewrite !mxE; field.
Qed.

Section Batch.

(* The observations absorbed so far, and the incoming (clipped) batch. *)
Variables (xs X : seq 'rV[F]_p).
Let n0 : int := (size xs)%:Z.
Let m := sample_mean xs.

Lemma new_means_sample i :
  (i < size X)%N ->
  nth 0 (new_means m n0 X) i = sample_mean (xs ++ take i.+1 X).
Proof.
move=> lt_i; rewrite /new_means nth_mkseq // /roll_partial_means nth_mkseq //.
have ne : take i.+1 X != [::].
  by rewrite -size_eq0 size_take_min (minn_idPl lt_i).
rewrite (sample_mean_cat _ ne) -/m.
by rewrite size_take_min (minn_idPl lt_i) nplus_nat -addrA natr1.
Qed.

Lemma nth_belast (T : Type) (x0 x : T) (s : seq T) (i : nat) :
  (i < size s)%N -> nth x0 (belast x s) i = nth x0 (x :: s) i.
Proof. by elim: s x i => [|y s IH] x [|i] //= lt_i; apply: IH. Qed.

Lemma new_means_offset_sample i :
  (i < size X)%N ->
  nth 0 (new_means_offset m n0 X) i = sample_mean (xs ++ take i X).
Proof.
move=> lt_i; rewrite /new_means_offset nth_belast ?size_new_means //.
case: i lt_i => [|i] lt_i /=; first by rewrite take0 cats0.
by rewrite new_means_sample // ltnW.
Qed.

(* Row i adds to the scatter what cov_B holds for it. *)
Lemma cov_B_scatter i :
  (i < size X)%N ->
  nth 0 (cov_B m n0 X) i
  = scatter (xs ++ take i.+1 X) - scatter (xs ++ take i X).
Proof.
move=> lt_i; rewrite /cov_B nth_mkseq //= new_means_offset_sample //.
rewrite (take_nth 0 lt_i) -cats1 catA cats1 scatter_rcons [RHS]addrC addKr.
by rewrite size_cat size_take_min (minn_idPl (ltnW lt_i)) nplus_nat natrD.
Qed.

Lemma sum_cov_B :
  \sum_(b <- cov_B m n0 X) b = scatter (xs ++ X) - scatter xs.
Proof.
have -> : cov_B m n0 X
          = [seq scatter (xs ++ take i.+1 X) - scatter (xs ++ take i X)
            | i <- iota 0 (size X)].
  apply: (@eq_from_nth _ 0); rewrite /cov_B size_mkseq ?size_map ?size_iota //.
  move=> i lt_i; rewrite -/(cov_B m n0 X) cov_B_scatter //.
  by rewrite (nth_map 0%N) ?size_iota // nth_iota.
rewrite big_map -[size X]subn0 -/(index_iota 0 (size X)).
by rewrite telescope_sumr // take_size take0 cats0.
Qed.

Lemma scatter_nil : scatter [::] = 0 :> 'M[F]_p.
Proof. by rewrite /scatter big_nil. Qed.

Lemma scatter1 x : scatter [:: x] = 0.
Proof.
by rewrite -[[:: x]]/(rcons [::] x) scatter_rcons scatter_nil /= mul0r scale0r addr0.
Qed.

(* The batch covariance is the scatter of all observations over the
   divisor n + max(1, nb - 1). *)
Lemma cov_batch_scatter :
  cov_batch m (sample_cov xs) n0 X
  = ((size xs)%:R + (max1 (size X))%:R)^-1 *: scatter (xs ++ X).
Proof.
rewrite /cov_batch sum_cov_B sample_covE /n0 -pmulrn.
set D := _ + (max1 _)%:R; set n := (size xs)%:R.
have -> : ((n - 1) / D) *: ((n - 1)^-1 *: scatter xs) = D^-1 *: scatter xs.
  have [n1|n_neq1] := eqVneq (size xs) 1%N.
    have -> : scatter xs = 0.
      by case: (xs) n1 => [|x [|? ?]] // _; apply: scatter1.
    by rewrite !scaler0.
  rewrite scalerA; congr (_ *: _).
  have nz : n - 1 != 0 :> F by rewrite subr_eq0 /n -[1]/(1%:R) eqr_nat.
  by rewrite mulrAC divff // mul1r.
by rewrite div1r -scalerDr addrC subrK.
Qed.

(* With at least two rows, or on the first batch ever, that is the sample
   covariance. *)
Lemma cov_batch_sample :
  (2 <= size X)%N || ((size xs == 0%N) && (size X == 1%N)) ->
  cov_batch m (sample_cov xs) n0 X = sample_cov (xs ++ X).
Proof.
rewrite cov_batch_scatter sample_covE size_cat natrD.
case/orP=> [ge2|/andP[/eqP n_0 /eqP b_1]].
  rewrite /max1 (maxn_idPr _); first by rewrite subn_gt0.
  by rewrite natrB ?(ltnW ge2) // addrA.
have -> : scatter (xs ++ X) = 0.
  case: (xs) n_0 => // _; case E: (X) b_1 => [|x [|? ?]] // _.
  exact: scatter1.
by rewrite !scaler0.
Qed.

End Batch.

End Welford.

Lemma effective_n_uncapped self :
  max_n self <= 0 -> effective_n self = (n self)%:Z.
Proof. by rewrite /effective_n ltNge => ->. Qed.

(* One returning call on an unclipped batch keeps the detector on the
   sample statistics, when the batch has two rows or more, or is the
   first row ever. *)
Lemma call_tracks self xs X :
  tracks self xs -> max_n self <= 0 -> (n self)%:Z <= start_clip self ->
  is_ok (_get_preds eigh sqrt X self).1 ->
  (2 <= size X)%N || ((size xs == 0%N) && (size X == 1%N)) ->
  tracks (_get_preds eigh sqrt X self).2 (xs ++ X).
Proof.
move=> [n_xs mean_xs C_xs] uncapped le_n + sized.
rewrite _get_predsE (unclipped _ le_n).
case EnX: (size X) => [|nb] //.
case: (eigh _ _ _) => [V|e2] //.
case: (run_loop_of X V) => [ls|e] //= _; split=> /=.
- by rewrite size_cat n_xs EnX.
- rewrite /means_of (effective_n_uncapped uncapped) n_xs mean_xs.
  rewrite -nth_last size_new_means EnX /=.
  rewrite (set_nth_default 0) ?size_new_means ?EnX //.
  by rewrite new_means_sample ?EnX // -EnX take_size.
- rewrite {1}/C_val /= /cov_batch_of (effective_n_uncapped uncapped).
  by rewrite n_xs mean_xs C_xs; apply: cov_batch_sample.
Qed.

(* An uncapped detector that holds the sample statistics of xs, fed
   batches of two rows or more while clipping is inactive, holds the
   sample statistics of everything absorbed. *)
Lemma calls_track self xs (batches : seq (seq 'rV[F]_p)) :
  tracks self xs -> max_n self <= 0 ->
  (size xs + size (flatten batches))%N%:Z <= start_clip self ->
  all_return eigh sqrt batches self ->
  all (fun X => (2 <= size X)%N) batches ->
  tracks (process_all eigh sqrt batches self) (xs ++ flatten batches).
Proof.
elim: batches self xs => [|X batches IH] self xs /=.
  by rewrite cats0.
move=> trk uncapped le_sc /andP[ret rets] /andP[ge2 ge2s].
have le_n : (n self)%:Z <= start_clip self.
  by case: trk => -> _ _; apply: le_trans le_sc; rewrite lez_nat leq_addr.
have [_ _ mx_eq _ sc_eq] := config_preserved X self.
rewrite catA; apply: IH => //.
- by apply: call_tracks => //; rewrite ge2.
- by rewrite mx_eq.
- by rewrite sc_eq size_cat -addnA -size_cat.
Qed.

Lemma tracks_init (th : F) nc ns (sc mx : int) self0 :
  init p th nc ns sc mx = Ok self0 -> tracks self0 [::].
Proof.
case=> <-; split=> //=; first by rewrite /sample_mean big_nil scaler0.
by rewrite /C_val /sample_cov big_nil scaler0.
Qed.

(* From the constructor, without cap and while clipping is inactive, the
   detector holds the sample statistics of all it was fed when only the
   first batch may have a single row. *)
Lemma process_all_tracks (th : F) nc ns (sc mx : int) self0
    (X1 : seq 'rV[F]_p) (rest : seq (seq 'rV[F]_p)) :
  init p th nc ns sc mx = Ok self0 -> mx <= 0 ->
  (size (flatten (X1 :: rest)))%:Z <= sc ->
  all_return eigh sqrt (X1 :: rest) self0 ->
  all (fun X => (2 <= size X)%N) rest ->
  tracks (process_all eigh sqrt (X1 :: rest) self0) (flatten (X1 :: rest)).
Proof.
move=> init0 uncapped le_sc /= /andP[ret rets] ge2s.
have trk0 := tracks_init init0.
have [mx0 sc0 n0] : [/\ max_n self0 = mx, start_clip self0 = sc
                      & n self0 = 0%N] by case: init0 => <-.
have [_ _ mx_eq _ sc_eq] := config_preserved X1 self0.
have X1_gt0 : (0 < size X1)%N.
  move: ret; rewrite _get_predsE; case: (get_Xclip _ _) => [Xc|e] //.
  by case: (size X1).
have trk1 : tracks (_get_preds eigh sqrt X1 self0).2 ([::] ++ X1).
  apply: call_tracks => //; rewrite ?mx0 ?sc0 ?n0 //=.
    by apply: le_trans le_sc.
  by case: (size X1) X1_gt0 => [|[|nb]].
apply: calls_track => //; rewrite ?mx_eq ?sc_eq ?mx0 ?sc0 //.
by move: le_sc; rewrite /= size_cat.
Qed.

(** X1. From the constructor, without cap and while clipping is inactive:
    after a first batch of any size and further batches of two rows or
    more (every call returning), n is the number of observations absorbed
    and mean and C are their sample mean and their sample covariance
    (divisor n-1). *)
Theorem moments_are_sample_statistics (th : F) nc ns (sc mx : int) self0
    (X1 : seq 'rV[F]_p) (rest : seq (seq 'rV[F]_p)) :
  init p th nc ns sc mx = Ok self0 -> mx <= 0 ->
  (size (flatten (X1 :: rest)))%:Z <= sc ->
  all_return eigh sqrt (X1 :: rest) self0 ->
  all (fun X => (2 <= size X)%N) rest ->
  [/\ n (process_all eigh sqrt (X1 :: rest) self0)
       = size (flatten (X1 :: rest)),
      mean (process_all eigh sqrt (X1 :: rest) self0)
       = sample_mean (flatten (X1 :: rest))
    & C_val (process_all eigh sqrt (X1 :: rest) self0)
       = sample_cov (flatten (X1 :: rest))].
Proof.
move=> init0 uncapped le_sc rets ge2s.
by have [] := process_all_tracks init0 uncapped le_sc rets ge2s.
Qed.

(** X2. From the constructor, without cap and while clipping is inactive:
    two ways of splitting the same observations into batches, each with
    batches of two rows or more after the first, end with the same mean
    and the same covariance. *)
Theorem batch_split_keeps_moments (th : F) nc ns (sc mx : int) self0
    (X1 Y1 : seq 'rV[F]_p) (Xs Ys : seq (seq 'rV[F]_p)) :
  init p th nc ns sc mx = Ok self0 -> mx <= 0 ->
  (size (flatten (X1 :: Xs)))%:Z <= sc ->
  flatten (X1 :: Xs) = flatten (Y1 :: Ys) ->
  all_return eigh sqrt (X1 :: Xs) self0 ->
  all_return eigh sqrt (Y1 :: Ys) self0 ->
  all (fun X => (2 <= size X)%N) Xs -> all (fun X => (2 <= size X)%N) Ys ->
  mean (process_all eigh sqrt (X1 :: Xs) self0)
  = mean (process_all eigh sqrt (Y1 :: Ys) self0)
  /\ C_val (process_all eigh sqrt (X1 :: Xs) self0)
     = C_val (process_all eigh sqrt (Y1 :: Ys) self0).
Proof.
move=> init0 uncapped le_sc same retX retY ge2X ge2Y.
have [_ -> ->] := process_all_tracks init0 uncapped le_sc retX ge2X.
rewrite same in le_sc *.
by have [_ -> ->] := process_all_tracks init0 uncapped le_sc retY ge2Y.
Qed.

(* --------------------------------------------------------------------- *)
(* Positive semi-definite matrices                                        *)
(* --------------------------------------------------------------------- *)

Section Definiteness.

Variable k : nat.
Implicit Types (A B : 'M[F]_k) (v w d : 'rV[F]_k).

Lemma qformD A B v : qform (A + B) v = qform A v + qform B v.
Proof. by rewrite /qform mulmxDr mulmxDl mxE. Qed.

Lemma qformZ a A v : qform (a *: A) v = a * qform A v.
Proof. by rewrite /qform -scalemxAr -scalemxAl mxE. Qed.

Lemma qform0 v : qform (0 : 'M[F]_k) v = 0.
Proof. by rewrite /qform mulmx0 mul0mx mxE. Qed.

Lemma mx11_mul (a b : 'M[F]_1) : (a *m b) 0 0 = a 0 0 * b 0 0.
Proof. by rewrite mxE big_ord1. Qed.

Lemma qform_outer d v : qform (d^T *m d) v = ((v *m d^T) 0 0) ^+ 2.
Proof.
rewrite /qform mulmxA -mulmxA mx11_mul expr2; congr (_ * _).
by rewrite -[d *m v^T]trmxK trmx_mul trmxK mxE.
Qed.

Lemma psd0 : psd (0 : 'M[F]_k).
Proof. by split=> [|v]; rewrite ?trmx0 ?qform0. Qed.

Lemma psdD A B : psd A -> psd B -> psd (A + B).
Proof.
move=> [symA geA] [symB geB]; split=> [|v]; first by rewrite linearD /= symA symB.
by rewrite qformD addr_ge0.
Qed.

Lemma psdZ a A : 0 <= a -> psd A -> psd (a *: A).
Proof.
move=> a_ge0 [symA geA]; split=> [|v]; first by rewrite linearZ /= symA.
by rewrite qformZ mulr_ge0.
Qed.

Lemma psd_outer d : psd (d^T *m d).
Proof.
split=> [|v]; first by rewrite trmx_mul trmxK.
by rewrite qform_outer sqr_ge0.
Qed.

Lemma psd_sum (T : Type) (s : seq T) (f : T -> 'M[F]_k) :
  (forall x, psd (f x)) -> psd (\sum_(x <- s) f x).
Proof.
move=> psd_f; elim: s => [|x s IH]; first by rewrite big_nil; apply: psd0.
by rewrite big_cons; apply: psdD.
Qed.

Lemma pd_psd A : pd A -> psd A.
Proof.
move=> [symA gtA]; split=> // v; have [->|v_neq0] := eqVneq v 0.
  by rewrite /qform !mul0mx mxE.
exact/ltW/gtA.
Qed.







End Definiteness.



(* --------------------------------------------------------------------- *)
(* The covariance of a reachable detector                                 *)
(* --------------------------------------------------------------------- *)

Lemma effective_n_ge0 self : 0 <= effective_n self.
Proof.
rewrite /effective_n; case: ifP => // /ltW max_ge0.
by rewrite le_min max_ge0 andbT.
Qed.

Lemma effective_n_eq0 self : effective_n self = 0 -> n self = 0%N.
Proof.
rewrite /effective_n; case: ifP => [max_gt0|_]; last by case.
by case: leP => [_ []|_ max0] //; rewrite max0 ltxx in max_gt0.
Qed.

Lemma nplus_ge0 (n0 : int) i : 0 <= n0 -> 0 <= nplus F n0 i.
Proof. by move=> n0_ge0; rewrite /nplus ler0z addr_ge0. Qed.

Lemma psd_cov_B (m0 : 'rV[F]_p) (n0 : int) X :
  0 <= n0 -> psd (\sum_(b <- cov_B m0 n0 X) b).
Proof.
move=> n0_ge0; rewrite /cov_B /mkseq big_map; apply: psd_sum => i.
apply: psdZ; last exact: psd_outer.
by rewrite divr_ge0 ?addr_ge0 ?nplus_ge0.
Qed.

Lemma psd_cov_batch self Xclip :
  cov_inv self -> psd (cov_batch_of self Xclip).
Proof.
move=> [psdC CNone _]; rewrite /cov_batch_of /cov_batch.
have n0_ge0 := effective_n_ge0 self.
have den_ge0 : 0 <= (effective_n self)%:~R + (max1 (size Xclip))%:R :> F.
  by rewrite addr_ge0 ?ler0z ?ler0n.
apply: psdD; last first.
  by apply: psdZ; [rewrite divr_ge0 | apply: psd_cov_B].
move: n0_ge0; rewrite le_eqVlt => /orP[/eqP n0_0|n0_gt0].
  have := CNone (effective_n_eq0 (esym n0_0)).
  by rewrite /C_val => ->; rewrite scaler0; apply: psd0.
apply: psdZ => //; rewrite divr_ge0 // subr_ge0.
by rewrite -[1]/(1%:~R) ler_int.
Qed.

Lemma cov_inv_step self X :
  cov_inv self -> cov_inv (_get_preds eigh sqrt X self).2.
Proof.
move=> inv; have [psdC CNone C0] := inv; rewrite _get_predsE.
case EX: (get_Xclip self X) => [Xclip|e1] //.
case EnX: (size X) => [|nb] //.
case: (eigh _ _ _) => [V|e2] //.
case: (run_loop_of Xclip V) => [ls|e] //=; split=> /=.
- exact: psd_cov_batch.
- by rewrite EnX addnS.
- rewrite EnX addnS ltnS leqn0 addn_eq0 => /andP[/eqP n_0 /eqP nb_0].
  have := size_get_Xclip EX; rewrite EnX nb_0.
  case: Xclip {EX} => [|x [|? ?]] // _.
  rewrite /C_val /= /cov_batch_of cov_batch_single effective_n0 //.
  by rewrite /C_val CNone //= mul0r !scaler0 scale0r scaler0 addr0.
Qed.

Lemma cov_inv_init (th : F) nc ns (sc mx : int) self0 :
  init p th nc ns sc mx = Ok self0 -> cov_inv self0.
Proof. by case=> <-; split=> //=; apply: psd0. Qed.

Lemma cov_inv_reachable (th : F) nc ns (sc mx : int) self0 self :
  init p th nc ns sc mx = Ok self0 -> reachable eigh sqrt self0 self ->
  cov_inv self.
Proof.
move=> /cov_inv_init inv0; elim=> [//|self1 X _ inv1].
exact: cov_inv_step.
Qed.


(* --------------------------------------------------------------------- *)
(* The inverse loop on positive semi-definite increments                  *)
(* --------------------------------------------------------------------- *)

Section LoopDefinite.

Variable k : nat.
Variables (n0 : int) (B : seq 'M[F]_k) (P : 'M[F]_k).
Hypothesis n0_ge0 : 0 <= n0.
Hypothesis psdP : psd P.
Hypothesis psdB : forall j, psd (nth 0 B j).





End LoopDefinite.



Lemma effective_n_le1 self :
  max_n self != 1 -> effective_n self <= 1 -> (n self <= 1)%N.
Proof.
rewrite /effective_n; case: ifP => [max_gt0|_] //.
case: (leP (n self)%:Z (max_n self)) => // _; move: max_gt0.
by case: (max_n self) => [[|[|m]]|m].
Qed.

Lemma proj_cov_zero self k (V : 'M[F]_(p, k)) :
  C_val self = 0 -> get_proj_cov (C self) V = 0.
Proof.
rewrite /C_val /get_proj_cov; case: (C self) => [c|] //= ->.
by rewrite mul0mx mulmx0.
Qed.

(* Unless max_n is 1, a seed row comes at n + i >= 2: before that the
   running covariance is the zero matrix, which fails the determinant
   test. *)
Lemma seed_row_ge2 self Xclip (V : 'M[F]_(p, n_comp self)) i0 :
  cov_inv self -> max_n self != 1 -> (0 < n_comp self)%N ->
  seed_row (effective_n self) (inv_B_of Xclip V) (get_proj_cov (C self) V) i0 ->
  2 <= effective_n self + i0%:Z.
Proof.
move=> inv max_neq1 k_gt0 seed; have [_ _ C0] := inv.
have n0_ge0 := effective_n_ge0 self.
rewrite leNgt; apply/negP => lt2.
have le1 : effective_n self + i0%:Z <= 1 by rewrite -ltzD1.
have n0_le1 : effective_n self <= 1 by apply: le_trans le1; rewrite lerDl.
have P0 := proj_cov_zero V (C0 (effective_n_le1 max_neq1 n0_le1)).
have [] := seed_row_inverse seed.
suff -> : run_cov (effective_n self) (inv_B_of Xclip V)
            (get_proj_cov (C self) V) i0 = 0.
  by rewrite unitmxE det0_pos // unitr0.
case: i0 le1 {seed lt2} => [|[|i0]] //= le1.
  have -> : effective_n self = 0.
    by apply/eqP; rewrite eq_le n0_ge0 andbT -(lerD2r 1) add0r.
  by rewrite eqxx.
have : 2 <= effective_n self + i0.+2%:Z.
  by rewrite -[2]add0r lerD.
by move=> /(le_trans) /(_ le1).
Qed.

Lemma size_inv_B_of self Xclip (V : 'M[F]_(p, n_comp self)) :
  size (inv_B_of Xclip V) = size Xclip.
Proof. by rewrite /inv_B_of /inv_B size_mkseq /project size_map. Qed.

(* A prefix of the loop either ends with no inverse produced or holds a
   seed row. *)
Lemma loop_prefix k (n0 : int) (B : seq 'M[F]_k) (P : 'M[F]_k) m :
  (exists2 ls, inv_loop n0 B (iota 0 m) (loop_init B P) = Ok ls
             & c_inv ls = None)
  \/ exists2 i0, (i0 < m)%N & seed_row n0 B P i0.
Proof.
elim: m => [|m [[ls run_m none_m]|[i0 lt_i0 seed]]].
- by left; exists (loop_init B P).
- case det_m: (EPSILON F < `|\det (proj_cov ls)|).
    by right; exists m => //; rewrite /seed_row run_m none_m det_m.
  left; rewrite -addn1 iotaD add0n inv_loop_cat run_m /= /inv_step none_m.
  rewrite det_m; case: ifP => _; first by exists ls.
  by eexists; first by [].
- by right; exists i0 => //; apply: ltnW.
Qed.

(* The loop raises nothing when every seed row comes at n + i >= 2. *)
Lemma loop_returns k (n0 : int) (B : seq 'M[F]_k) (P : 'M[F]_k) :
  (forall i0, seed_row n0 B P i0 -> 2 <= n0 + i0%:Z) ->
  exists ls, run_loop n0 B P = Ok ls.
Proof.
move=> ge2; rewrite /run_loop.
have [[ls run_all _]|[i0 lt_i0 seed]] := loop_prefix n0 B P (size B).
  by exists ls.
have [_ [ls_i [run_i some_i _]]] := seed_row_inverse seed.
rewrite (iota_split lt_i0) inv_loop_cat run_i /=.
apply: inv_loop_Some => // j; rewrite mem_iota => /andP[lt_j _].
rewrite subr_eq0; apply/eqP => eq2.
have : n0 + i0%:Z < n0 + j%:Z by rewrite ltrD2l ltz_nat.
by rewrite eq2 ltNge ge2.
Qed.


(* A call returns when the batch is clamped without error and is not
   empty, eigh returns, and max_n is not 1. *)
Lemma call_is_ok self X Xclip V :
  cov_inv self -> max_n self != 1 -> (0 < n_comp self)%N ->
  get_Xclip self X = Ok Xclip -> X != [::] ->
  eigh (n_comp self) (eigvals_range p (n_comp self))
      (cov_batch_of self Xclip) = Ok V ->
  is_ok (_get_preds eigh sqrt X self).1.
Proof.
move=> inv max_neq1 k_gt0 EX X_neq0 EV.
have [ls run] : exists ls, run_loop_of Xclip V = Ok ls.
  by apply: loop_returns => i0; apply: seed_row_ge2.
by rewrite (call_returns EX X_neq0 EV run).
Qed.

(** X4. In every state a detector reaches, unless max_n = 1: a call on a
    batch that is not empty returns its labels and commits the new state
    when the clamping and the eigendecomposition raise nothing; the
    inverse loop never raises. *)
Theorem call_returns_unless_cap_one (th : F) nc ns (sc mx : int) self0 self
    X Xclip V :
  init p th nc ns sc mx = Ok self0 -> reachable eigh sqrt self0 self ->
  max_n self != 1 -> (0 < n_comp self)%N ->
  get_Xclip self X = Ok Xclip -> X != [::] ->
  eigh (n_comp self) (eigvals_range p (n_comp self))
      (cov_batch_of self Xclip) = Ok V ->
  exists2 ls, run_loop_of Xclip V = Ok ls
    & _get_preds eigh sqrt X self
      = (Ok (get_prediction (threshold self)
               (score_of X Xclip V (all_C_inv ls))),
         commit sqrt X Xclip V (all_C_inv ls)).
Proof.
move=> init0 reach max_neq1 k_gt0 EX X_neq0 EV.
have inv := cov_inv_reachable init0 reach.
have [ls run] : exists ls, run_loop_of Xclip V = Ok ls.
  by apply: loop_returns => i0; apply: seed_row_ge2.
by exists ls; rewrite ?(call_returns EX X_neq0 EV run).
Qed.


(* What a call does to n: it adds the rows of the batch when it returns. *)
Lemma n_after_call X self :
  n (_get_preds eigh sqrt X self).2
  = (n self + (if is_ok (_get_preds eigh sqrt X self).1 then size X else 0))%N.
Proof.
rewrite _get_predsE.
case: (get_Xclip self X) => [Xclip|e1] /=; last by rewrite addn0.
case EnX: (size X) => [|nb] /=; first by rewrite addn0.
case: (eigh _ _ _) => [V|e2] /=; last by rewrite addn0.
by case: (run_loop_of Xclip V) => [ls|e] /=; rewrite ?addn0 ?EnX.
Qed.

Lemma n_counts_absorbed_rows (batches : seq (seq 'rV[F]_p)) self :
  n (process_all eigh sqrt batches self)
  = (n self + size (absorbed eigh sqrt batches self))%N.
Proof.
elim: batches self => [|X batches IH] self /=; first by rewrite addn0.
by rewrite IH n_after_call size_cat addnA; case: ifP.
Qed.

(* A call of an uncapped detector that holds the sample mean of xs, while
   clipping is inactive, holds the sample mean of xs and of the batch if
   it returns. *)
Lemma call_tracks_mean self xs X :
  n self = size xs -> mean self = sample_mean xs ->
  max_n self <= 0 -> (n self)%:Z <= start_clip self ->
  is_ok (_get_preds eigh sqrt X self).1 ->
  mean (_get_preds eigh sqrt X self).2 = sample_mean (xs ++ X).
Proof.
move=> n_xs mean_xs uncapped le_n.
rewrite _get_predsE (unclipped _ le_n).
case EnX: (size X) => [|nb] //.
case: (eigh _ _ _) => [V|e2] //.
case: (run_loop_of X V) => [ls|e] //= _.
rewrite /means_of (effective_n_uncapped uncapped) n_xs mean_xs.
rewrite -nth_last size_new_means EnX /=.
rewrite (set_nth_default 0) ?size_new_means ?EnX //.
by rewrite new_means_sample ?EnX // -EnX take_size.
Qed.

Lemma absorbed_size_le (batches : seq (seq 'rV[F]_p)) self :
  (size (absorbed eigh sqrt batches self) <= size (flatten batches))%N.
Proof.
elim: batches self => [|X batches IH] self //=.
rewrite !size_cat leq_add //; by case: ifP.
Qed.

Lemma process_all_mean self xs (batches : seq (seq 'rV[F]_p)) :
  n self = size xs -> mean self = sample_mean xs ->
  max_n self <= 0 ->
  (size xs + size (flatten batches))%N%:Z <= start_clip self ->
  mean (process_all eigh sqrt batches self)
  = sample_mean (xs ++ absorbed eigh sqrt batches self).
Proof.
elim: batches self xs => [|X batches IH] self xs /=.
  by rewrite cats0.
move=> n_xs mean_xs uncapped le_sc.
have le_n : (n self)%:Z <= start_clip self.
  by rewrite n_xs; apply: le_trans le_sc; rewrite lez_nat leq_addr.
have [_ _ mx_eq _ sc_eq] := config_preserved X self.
case ret: (is_ok _).
  rewrite catA; apply: IH; rewrite ?mx_eq ?sc_eq //.
  - by rewrite n_after_call ret n_xs size_cat.
  - exact: call_tracks_mean.
  - by rewrite size_cat -addnA -size_cat.
have same : (_get_preds eigh sqrt X self).2 = self.
  move: ret; case E: (_get_preds eigh sqrt X self).1 => [preds|e] // _.
  exact: raise_leaves_state E.
rewrite same /=; apply: IH => //.
apply: le_trans le_sc; rewrite lez_nat leq_add2l size_cat leq_addl //.
Qed.

(** X5. From the constructor, without cap and while clipping is inactive:
    whatever the sizes of the batches and whichever calls raised, n is
    the number of rows of the batches whose call returned and mean is
    their sample mean. *)
Theorem mean_is_sample_mean (th : F) nc ns (sc mx : int) self0
    (batches : seq (seq 'rV[F]_p)) :
  init p th nc ns sc mx = Ok self0 -> mx <= 0 ->
  (size (flatten batches))%:Z <= sc ->
  n (process_all eigh sqrt batches self0)
  = size (absorbed eigh sqrt batches self0)
  /\ mean (process_all eigh sqrt batches self0)
     = sample_mean (absorbed eigh sqrt batches self0).
Proof.
move=> init0 uncapped le_sc.
have [n0 mean0 _] := tracks_init init0.
have [mx0 sc0] : max_n self0 = mx /\ start_clip self0 = sc.
  by case: init0 => <-.
split; first by rewrite n_counts_absorbed_rows n0.
by rewrite (@process_all_mean self0 [::]) // ?mx0 ?sc0.
Qed.


(* --------------------------------------------------------------------- *)
(* The mean update as a weighted average                                  *)
(* --------------------------------------------------------------------- *)

Lemma nplus_gt0 (n0 : int) i : 0 <= n0 -> 0 < nplus F n0 i + 1.
Proof.
by move=> n0_ge0; rewrite ltr_pwDr // /nplus ler0z addr_ge0.
Qed.

(* Row i of new_means is the average of n copies of the old mean and of
   the rows up to i. *)
Lemma new_means_weighted (m : 'rV[F]_p) (n0 : int) X i :
  0 <= n0 -> (i < size X)%N ->
  (nplus F n0 i + 1) *: nth 0 (new_means m n0 X) i
  = n0%:~R *: m + \sum_(x <- take i.+1 X) x.
Proof.
move=> n0_ge0 lt_i; rewrite /new_means nth_mkseq // /roll_partial_means.
rewrite nth_mkseq //; set W := nplus F n0 i + 1; set S := \sum_(x <- _) x.
have W_neq0 : W != 0 by rewrite gt_eqF // nplus_gt0.
have i1_neq0 : i.+1%:R != 0 :> F by rewrite pnatr_eq0.
rewrite scalerDr scalerA mulrCA divff // mulr1 scalerBr scalerA divff //.
rewrite scale1r addrCA -scalerBl addrC; congr (_ *: _ + _).
by rewrite /W /nplus rmorphD /= -pmulrn -natr1 -[X in X - _]addrA addrK.
Qed.

Lemma sum_between (T : eqType) (s : seq T) (f : T -> F) (a b : F) :
  {in s, forall x, a <= f x <= b} ->
  (size s)%:R * a <= \sum_(x <- s) f x <= (size s)%:R * b.
Proof.
elim: s => [|x s IH] in_ab; first by rewrite big_nil !mul0r lexx.
have /andP[a_le le_b] := in_ab x (mem_head _ _).
have /andP[sa_le le_sb] : (size s)%:R * a <= \sum_(x <- s) f x
                          <= (size s)%:R * b.
  by apply: IH => y in_s; apply: in_ab; rewrite inE in_s orbT.
by rewrite big_cons /= -natr1 !mulrDl !mul1r [_ + a]addrC [_ + b]addrC !lerD.
Qed.

(** X6. In a call that returns, with or without cap and clipping: the new
    mean is the average of n copies of the old mean (n the effective n)
    and of the rows of the clamped batch; so on every feature it stays
    between bounds that hold for the old mean and for those rows. *)
Theorem mean_update_weighted_average self X preds self' :
  _get_preds eigh sqrt X self = (Ok preds, self') ->
  exists2 Xclip, get_Xclip self X = Ok Xclip
    & ((effective_n self)%:~R + (size X)%:R) *: mean self'
      = (effective_n self)%:~R *: mean self + \sum_(x <- Xclip) x
      /\ forall j (a b : F),
           a <= mean self 0 j <= b ->
           (forall x, x \in Xclip -> a <= x 0 j <= b) ->
           a <= mean self' 0 j <= b.
Proof.
rewrite _get_predsE.
case EX: (get_Xclip self X) => [Xclip|e1] //.
case EnX: (size X) => [|nb] //.
case: (eigh _ _ _) => [V|e2] //.
case: (run_loop_of Xclip V) => [ls|e] //= [_ <-] /=.
exists Xclip => //.
have n0_ge0 := effective_n_ge0 self.
have sz := size_get_Xclip EX.
have lt_nb : (nb < size Xclip)%N by rewrite sz EnX.
have eq_mean :
    ((effective_n self)%:~R + nb.+1%:R) *:
      last (mean self) (means_of self Xclip)
    = (effective_n self)%:~R *: mean self + \sum_(x <- Xclip) x.
  rewrite -nth_last /means_of size_new_means sz EnX /=.
  rewrite (set_nth_default 0) ?size_new_means //.
  have := new_means_weighted (mean self) n0_ge0 lt_nb.
  by rewrite take_oversize ?sz ?EnX // /nplus rmorphD /= -pmulrn -addrA natr1.
split=> // j a b /andP[a_le le_b] in_ab.
have W_gt0 : 0 < (effective_n self)%:~R + nb.+1%:R :> F.
  by rewrite ltr_wpDl ?ler0z // ltr0n.
have /(congr1 (fun v : 'rV[F]_p => v 0 j)) := eq_mean.
rewrite !mxE summxE => eq_j.
have n0F_ge0 : 0 <= (effective_n self)%:~R :> F by rewrite ler0z.
have /andP[sa_le le_sb] :
    (size Xclip)%:R * a <= \sum_(x <- Xclip) x 0 j <= (size Xclip)%:R * b.
  exact: sum_between.
rewrite sz EnX in sa_le le_sb.
rewrite -(ler_pM2l W_gt0) -[X in _ && X](ler_pM2l W_gt0) eq_j !mulrDl.
by rewrite !lerD // ler_wpM2l.
Qed.

Lemma clip_inv_step self X :
  clip_inv sqrt self -> clip_inv sqrt (_get_preds eigh sqrt X self).2.
Proof.
move=> inv; rewrite _get_predsE.
case: (get_Xclip self X) => [Xclip|e1] //.
case EnX: (size X) => [|nb] //.
case: (eigh _ _ _) => [V|e2] //.
case: (run_loop_of Xclip V) => [ls|e] //= lo hi /=.
case: ifP => [lt_n1 [<- <-]|ge_n1 old]; first by split.
have [lt_n _ _] := inv lo hi old.
suff : start_clip self < (n self + size X)%N%:Z by rewrite ge_n1.
by apply: lt_le_trans lt_n _; rewrite lez_nat leq_addr.
Qed.

Lemma clip_inv_reachable (th : F) nc ns (sc mx : int) self0 self :
  init p th nc ns sc mx = Ok self0 -> reachable eigh sqrt self0 self ->
  clip_inv sqrt self.
Proof.
move=> init0; elim=> [|self1 X _ inv1]; last exact: clip_inv_step.
by case: init0 => <-.
Qed.

(* The diagonal of a positive semi-definite matrix is not negative. *)
Lemma psd_diag k (A : 'M[F]_k) j : psd A -> 0 <= A j j.
Proof.
by case=> _ /(_ (delta_mx 0 j)); rewrite /qform -rowE trmx_delta -colE !mxE.
Qed.

(* minimum(maximum(x, lo), hi) between the bounds. *)
Lemma clamp_between (x lo hi : F) :
  lo <= hi -> lo <= Num.min (Num.max x lo) hi <= hi.
Proof.
by move=> le_lh; rewrite le_min le_max lexx orbT le_lh ge_min lexx orbT.
Qed.

Lemma clamp_id (x lo hi : F) :
  lo <= x <= hi -> Num.min (Num.max x lo) hi = x.
Proof. by case/andP=> le_lx le_xh; rewrite max_l // min_l. Qed.

(* The configuration of a reachable detector is the constructor's. *)
Lemma reachable_config (th : F) nc ns (sc mx : int) self0 self :
  init p th nc ns sc mx = Ok self0 -> reachable eigh sqrt self0 self ->
  [/\ threshold self = th, n_components self = nc, max_n self = mx,
      n_stdev self = ns & start_clip self = sc].
Proof.
move=> init0; elim=> [|s Y _ IH]; first by case: init0 => <-.
by have [-> -> -> -> ->] := config_preserved Y s.
Qed.

(** X7. In every state a detector reaches, clip bounds exist only once n
    exceeds start_clip, and they are the mean of that state minus and
    plus n_stdev times the square roots of the diagonal of its C; the
    next batch is clamped to them: with n_stdev >= 0 and a square root
    that is not negative, every clamped entry lies between the bounds,
    which enclose the mean, and an entry already between them is kept. *)
Theorem clip_bounds_around_mean (th : F) nc ns (sc mx : int) self0 self
    lo hi X :
  init p th nc ns sc mx = Ok self0 -> reachable eigh sqrt self0 self ->
  clip self = Some (lo, hi) ->
  [/\ start_clip self < (n self)%:Z,
      lo = mean self - ns *: stdev_of sqrt self,
      hi = mean self + ns *: stdev_of sqrt self,
      get_Xclip self X = Ok (np_clip X lo hi)
    & 0 <= ns -> (forall x, 0 <= x -> 0 <= sqrt x) ->
      forall i j, (i < size X)%N ->
        [/\ lo 0 j <= mean self 0 j <= hi 0 j,
            lo 0 j <= nth 0 (np_clip X lo hi) i 0 j <= hi 0 j
          & lo 0 j <= nth 0 X i 0 j <= hi 0 j ->
            nth 0 (np_clip X lo hi) i 0 j = nth 0 X i 0 j]].
Proof.
move=> init0 reach clipE.
have [lt_n lo_eq hi_eq] := clip_inv_reachable init0 reach clipE.
have [_ _ _ ns_eq _] := reachable_config init0 reach.
rewrite ns_eq in lo_eq hi_eq.
split=> //; first by rewrite /get_Xclip lt_n clipE.
move=> ns_ge0 sqrt_ge0 i j lt_i.
have [psdC _ _] := cov_inv_reachable init0 reach.
have sd_ge0 : 0 <= ns * stdev_of sqrt self 0 j.
  by rewrite mulr_ge0 // mxE sqrt_ge0 // psd_diag.
have lo_le : lo 0 j <= mean self 0 j by rewrite lo_eq 3!mxE gerBl.
have le_hi : mean self 0 j <= hi 0 j by rewrite hi_eq 2!mxE lerDl.
rewrite /np_clip (nth_map 0) // !mxE lo_le le_hi; split=> //.
  by apply: clamp_between; apply: le_trans le_hi.
exact: clamp_id.
Qed.

Lemma rank_outer k (d : 'rV[F]_k) : (\rank (d^T *m d) <= 1)%N.
Proof. exact: leq_trans (mxrankM_maxr _ _) (rank_leq_row _). Qed.

Lemma rank_sum_seq k (T : Type) (s : seq T) (f : T -> 'M[F]_k) :
  (forall x, \rank (f x) <= 1)%N -> (\rank (\sum_(x <- s) f x)%R <= size s)%N.
Proof.
move=> rank1; elim: s => [|x s IH]; first by rewrite big_nil mxrank0.
rewrite big_cons /=; apply: leq_trans (mxrank_add _ _) _.
by rewrite -add1n leq_add.
Qed.

Lemma rank_cov_B (m0 : 'rV[F]_p) (n0 : int) X :
  (\rank (\sum_(b <- cov_B m0 n0 X) b)%R
     <= if n0 == 0 then (size X).-1 else size X)%N.
Proof.
have rank1 i : (\rank ((nplus F n0 i / (nplus F n0 i + 1)) *:
     ((nth 0 X i - nth 0 (new_means_offset m0 n0 X) i)^T
        *m (nth 0 X i - nth 0 (new_means_offset m0 n0 X) i)))%R <= 1)%N.
  exact: leq_trans (mxrank_scale _ _) (rank_outer _).
rewrite /cov_B /mkseq big_map; case: ifP => [/eqP n0_0|_]; last first.
  by apply: leq_trans (rank_sum_seq _ rank1) _; rewrite size_iota.
case: (size X) => [|nb]; first by rewrite big_nil mxrank0.
rewrite /= big_cons {1 2}n0_0 /nplus add0r mul0r scale0r add0r.
by apply: leq_trans (rank_sum_seq _ rank1) _; rewrite size_iota.
Qed.

Lemma rank_cov_batch self Xclip :
  rank_inv self -> Xclip != [::] ->
  (\rank (cov_batch_of self Xclip) <= (n self + size Xclip).-1)%N.
Proof.
move=> [[_ C_n0] rankC] nonempty; rewrite /cov_batch_of /cov_batch.
have nb_gt0 : (0 < size Xclip)%N by rewrite lt0n size_eq0.
apply: leq_trans (mxrank_add _ _) _.
have [n_0|n_gt0] := posnP (n self).
  have /C_n0 : n self = 0%N by [].
  rewrite /C_val => ->; rewrite scaler0 mxrank0 add0n n_0 add0n.
  apply: leq_trans (mxrank_scale _ _) _.
  by apply: leq_trans (rank_cov_B _ _ _) _; rewrite effective_n0 ?eqxx.
rewrite -(prednK n_gt0) addSn /= leq_add //.
  exact: leq_trans (mxrank_scale _ _) _.
apply: leq_trans (mxrank_scale _ _) _.
apply: leq_trans (rank_cov_B _ _ _) _.
by case: ifP => // _; apply: leq_pred.
Qed.

Lemma rank_inv_step self X :
  rank_inv self -> rank_inv (_get_preds eigh sqrt X self).2.
Proof.
move=> inv; rewrite _get_predsE.
case EX: (get_Xclip self X) => [Xclip|e1] //.
case EnX: (size X) => [|nb] //.
case: (eigh _ _ _) => [V|e2] //.
case: (run_loop_of Xclip V) => [ls|e] //=; split=> /=.
  by rewrite EnX addnS.
rewrite {1}/C_val /= -(size_get_Xclip EX); apply: rank_cov_batch => //.
by rewrite -size_eq0 (size_get_Xclip EX) EnX.
Qed.

Lemma rank_inv_reachable (th : F) nc ns (sc mx : int) self0 self :
  init p th nc ns sc mx = Ok self0 -> reachable eigh sqrt self0 self ->
  rank_inv self.
Proof.
move=> init0; elim=> [|self1 X _ inv1]; last exact: rank_inv_step.
by case: init0 => <-; split=> //=; rewrite /C_val /= mxrank0.
Qed.

(** X8. In every state a detector reaches, C is symmetric and positive
    semi-definite, its diagonal is not negative, it is the integer 0
    exactly while n = 0, and its rank is at most n - 1. *)
Theorem covariance_invariants (th : F) nc ns (sc mx : int) self0 self :
  init p th nc ns sc mx = Ok self0 -> reachable eigh sqrt self0 self ->
  [/\ (C_val self)^T = C_val self,
      forall v : 'rV[F]_p, 0 <= qform (C_val self) v,
      forall j, 0 <= C_val self j j,
      C self = None <-> n self = 0%N
    & (\rank (C_val self) <= (n self).-1)%N].
Proof.
move=> init0 reach.
have [psdC _ _] := cov_inv_reachable init0 reach.
have [C_n rankC] := rank_inv_reachable init0 reach.
by case: (psdC) => symC geC; split=> // j; apply: psd_diag.
Qed.

(* --------------------------------------------------------------------- *)
(* The rows scored before enough observations were absorbed              *)
(* --------------------------------------------------------------------- *)

Lemma run_covS k (n0 : int) (B : seq 'M[F]_k) (P : 'M[F]_k) i :
  run_cov n0 B P i.+1
  = if n0 + i%:Z == 0 then run_cov n0 B P i
    else ((nplus F n0 i - 1) / nplus F n0 i) *: run_cov n0 B P i + nth 0 B i.
Proof. by []. Qed.

Section LoopRank.

Variable k : nat.
Variables (n0 : int) (B : seq 'M[F]_k) (P : 'M[F]_k).
Hypothesis rankB : forall j, (\rank (nth 0 B j)%R <= 1)%N.

Lemma rank_run_cov r i :
  (\rank P <= r)%N -> (\rank (run_cov n0 B P i) <= r + i)%N.
Proof.
move=> rankP; elim: i => [|i IH]; first by rewrite addn0.
rewrite run_covS addnS; case: ifP => _; first exact: leqW.
apply: leq_trans (mxrank_add _ _) _; rewrite -addn1 leq_add //.
exact: leq_trans (mxrank_scale _ _) _.
Qed.

Lemma rank_run_cov0 i :
  n0 = 0 -> P = 0 -> (\rank (run_cov n0 B P i) <= i.-1)%N.
Proof.
move=> n0_0 P0; case: i => [|i]; first by rewrite /= P0 mxrank0.
rewrite [i.+1.-1]/=.
elim: i => [|i IH]; first by rewrite run_covS n0_0 eqxx /= P0 mxrank0.
rewrite run_covS {1}n0_0 add0r /=.
apply: leq_trans (mxrank_add _ _) _; rewrite -addn1 leq_add //.
exact: leq_trans (mxrank_scale _ _) _.
Qed.

End LoopRank.

Lemma det0_rank k (A : 'M[F]_k) : (\rank A < k)%N -> \det A = 0.
Proof.
move=> lt_k; apply/eqP/negPn/negP => det_neq0.
have unitA : A \in unitmx by rewrite unitmxE unitfE.
by rewrite (mxrank_unit unitA) ltnn in lt_k.
Qed.

Lemma rank_get_proj_cov self k (V : 'M[F]_(p, k)) :
  (\rank (get_proj_cov (C self) V) <= \rank (C_val self))%N.
Proof.
rewrite /get_proj_cov /C_val; case: (C self) => [c|] /=; last by rewrite mxrank0.
exact: leq_trans (mxrankM_maxr _ _) (mxrankM_maxl _ _).
Qed.

Lemma rank_inv_B k (n0 : int) (xs ms : seq 'rV[F]_k) j :
  (\rank (nth 0 (inv_B n0 xs ms) j)%R <= 1)%N.
Proof.
have [u [v ->]] := inv_B_rank_one n0 xs ms j.
exact: leq_trans (mxrankM_maxr _ _) (rank_leq_row _).
Qed.

(* Before row i the running projected covariance has rank below n + i. *)
Lemma rank_run_cov_of self Xclip (V : 'M[F]_(p, n_comp self)) i :
  rank_inv self ->
  (\rank (run_cov (effective_n self) (inv_B_of Xclip V)
            (get_proj_cov (C self) V) i) <= (n self + i).-1)%N.
Proof.
move=> [[_ C_n0] rankC].
have rankB j : (\rank (nth 0 (inv_B_of Xclip V) j)%R <= 1)%N.
  exact: rank_inv_B.
have [n_0|n_gt0] := posnP (n self).
  rewrite n_0 add0n; apply: rank_run_cov0 => //; first exact: effective_n0.
  by rewrite (C_n0 n_0).
rewrite -(prednK n_gt0) addSn /=; apply: rank_run_cov => //.
exact: leq_trans (rank_get_proj_cov _ _) rankC.
Qed.

(** X9. In every state a detector reaches, while at most n_components
    rows have been absorbed (rows of earlier calls and earlier rows of the
    batch; n_components capped by the number of features) and the loop
    holds no inverse yet: the projected covariance whose determinant the
    loop tests next has rank at most one less than the number of rows
    absorbed, so below its size; its determinant is 0 and it has no
    inverse.  The test np.abs(det) > EPSILON is then met by a rounding
    error of np.linalg.det only. *)
Theorem warm_up_covariance_singular (th : F) nc ns (sc mx : int) self0 self
    Xclip (V : 'M[F]_(p, n_comp self)) i ls :
  init p th nc ns sc mx = Ok self0 -> reachable eigh sqrt self0 self ->
  inv_loop (effective_n self) (inv_B_of Xclip V) (iota 0 i)
    (loop_init (inv_B_of Xclip V) (get_proj_cov (C self) V)) = Ok ls ->
  c_inv ls = None ->
  (0 < n_comp self)%N -> (n self + i <= n_comp self)%N ->
  [/\ (\rank (proj_cov ls) <= (n self + i).-1)%N,
      (\rank (proj_cov ls) < n_comp self)%N,
      \det (proj_cov ls) = 0
    & proj_cov ls \notin unitmx].
Proof.
move=> init0 reach run none k_gt0 le_k.
have inv := rank_inv_reachable init0 reach.
have [-> _] := proj_cov_run_cov run none.
have rank_i := rank_run_cov_of Xclip V i inv.
have lt_k : (\rank (run_cov (effective_n self) (inv_B_of Xclip V)
                      (get_proj_cov (C self) V) i) < n_comp self)%N.
  apply: leq_ltn_trans rank_i _.
  by case: (n self + i)%N le_k => [|m].
split=> //; first exact: det0_rank.
by rewrite unitmxE unitfE det0_rank ?eqxx.
Qed.

(* --------------------------------------------------------------------- *)
(* The sign of the scores                                                 *)
(* --------------------------------------------------------------------- *)


(* A seed row at n + i = 1 is the last row of a loop that returns: the
   rescale of the next row divides by zero. *)
Lemma seed_at_one_raises k (n0 : int) (B : seq 'M[F]_k) (P : 'M[F]_k) i0 :
  seed_row n0 B P i0 -> n0 + i0%:Z = 1 -> (i0.+1 < size B)%N ->
  run_loop n0 B P = Raise ZeroDivisionError.
Proof.
move=> seed eq1 lt_i0.
have [_ [ls_i [run_i some_i _]]] := seed_row_inverse seed.
rewrite /run_loop (iota_split (ltnW lt_i0)) inv_loop_cat run_i /=.
rewrite -subn_gt0 in lt_i0; rewrite -(prednK lt_i0) /= {1}/inv_step.
case: (c_inv ls_i) some_i => // c _.
by rewrite -addn1 PoszD addrA eq1.
Qed.



(* --------------------------------------------------------------------- *)
(* The outcomes of a call                                                 *)
(* --------------------------------------------------------------------- *)

(** X11. In every state reached by a detector built with start_clip >= 0
    and max_n other than 1, keeping at least one component: the clamping
    raises nothing; a call on an empty batch raises IndexError; a call on
    another batch whose eigendecomposition raises ends with that very
    exception (LinAlgError or ValueError, as scipy.linalg.eigh raises);
    both leave the object as it was; every other call returns; the
    method raises no exception of its own besides (no TypeError, no
    ZeroDivisionError). *)
Theorem call_outcomes (th : F) nc ns (sc mx : int) self0 self X :
  init p th nc ns sc mx = Ok self0 -> reachable eigh sqrt self0 self ->
  0 <= sc -> mx != 1 -> (0 < n_comp self)%N ->
  exists2 Xclip, get_Xclip self X = Ok Xclip /\ size Xclip = size X
  & [/\ X = [::] -> _get_preds eigh sqrt X self = (Raise IndexError, self),
        X != [::] ->
          forall e,
            eigh (n_comp self) (eigvals_range p (n_comp self))
              (cov_batch_of self Xclip) = Raise e ->
            _get_preds eigh sqrt X self = (Raise e, self),
        X != [::] ->
          is_ok (eigh (n_comp self) (eigvals_range p (n_comp self))
                   (cov_batch_of self Xclip)) ->
          is_ok (_get_preds eigh sqrt X self).1
      & forall e, (_get_preds eigh sqrt X self).1 = Raise e ->
          (X = [::] /\ e = IndexError)
          \/ (X != [::]
              /\ eigh (n_comp self) (eigvals_range p (n_comp self))
                   (cov_batch_of self Xclip) = Raise e)].
Proof.
move=> init0 reach sc_ge0 mx_neq1 k_gt0.
have clipE := clip_reachable sc_ge0 init0 reach.
have inv := cov_inv_reachable init0 reach.
have [_ _ mx_eq _ _] := reachable_config init0 reach.
have max_neq1 : max_n self != 1 by rewrite mx_eq.
have [Xclip EX] : exists Xclip, get_Xclip self X = Ok Xclip.
  rewrite /get_Xclip -clipE; case: (clip self) => [[lo hi]|] /=.
    by exists (np_clip X lo hi).
  by exists X.
exists Xclip; first by split=> //; apply: size_get_Xclip EX.
split.
- by move=> X0; rewrite _get_predsE EX X0.
- by move=> X_neq0 e EV; rewrite _get_predsE EX EV; case: (X) X_neq0.
- move=> X_neq0; case EV: (eigh _ _ _) => [V|e2] // _.
  exact: call_is_ok EV.
- move=> e; rewrite _get_predsE EX.
  case EnX: (size X) => [|nb] /=.
    by case=> <-; left; split=> //; apply: size0nil.
  have X_neq0 : X != [::] by rewrite -size_eq0 EnX.
  case EV: (eigh _ _ _) => [V|e2] /=; last by case=> <-; right.
  have [ls ->] // : exists ls, run_loop_of Xclip V = Ok ls.
  by apply: loop_returns => i0; apply: seed_row_ge2.
Qed.

(* --------------------------------------------------------------------- *)
(* The threshold and the statistics                                       *)
(* --------------------------------------------------------------------- *)

(* A higher threshold flags fewer rows. *)
Lemma get_prediction_mono (th1 th2 : F) (sc : seq F) i :
  th1 <= th2 ->
  (nth 0 (get_prediction th2 sc) i <= nth 0 (get_prediction th1 sc) i)%N.
Proof.
move=> le_th; have [lt_i|ge_i] := ltnP i (size sc); last first.
  by rewrite !nth_default ?size_get_prediction.
rewrite /get_prediction !(nth_map 0) //.
case: ifP => // lt2; rewrite ifT //; exact: le_lt_trans lt2.
Qed.

(* One call on two detectors that differ in threshold and labels only. *)
Lemma call_same_statistics X self1 self2 :
  statistics self1 = statistics self2 ->
  [/\ statistics (_get_preds eigh sqrt X self1).2
      = statistics (_get_preds eigh sqrt X self2).2,
      (forall e, (_get_preds eigh sqrt X self1).1 = Raise e <->
                 (_get_preds eigh sqrt X self2).1 = Raise e)
    & threshold self1 <= threshold self2 ->
      forall l1 l2,
        (_get_preds eigh sqrt X self1).1 = Ok l1 ->
        (_get_preds eigh sqrt X self2).1 = Ok l2 ->
        size l1 = size l2 /\ forall i, (nth 0 l2 i <= nth 0 l1 i)%N].
Proof.
case: self1 => th1 nc1 mx1 ns1 sc1 cl1 m1 C1 n1 s1 l1.
case: self2 => th2 nc2 mx2 ns2 sc2 cl2 m2 C2 n2 s2 l2.
rewrite /statistics /= => -[-> -> -> -> -> -> -> -> ->].
set t1 := Detector th1 _ _ _ _ _ _ _ _ _ _.
set t2 := Detector th2 _ _ _ _ _ _ _ _ _ _.
have EX : get_Xclip t1 X = get_Xclip t2 X by [].
have Ecov Xc : cov_batch_of t1 Xc = cov_batch_of t2 Xc by [].
have Eloop Xc V : @run_loop_of _ _ t1 Xc V = @run_loop_of _ _ t2 Xc V by [].
have Esc Xc V inverses :
    @score_of _ _ t1 X Xc V inverses = @score_of _ _ t2 X Xc V inverses.
  by [].
rewrite !_get_predsE EX.
case: (get_Xclip t2 X) => [Xclip|e1] //.
case EnX: (size X) => [|nb] //.
rewrite Ecov -[n_comp t1]/(n_comp t2).
case: (eigh _ _ _) => [V|e2] //.
rewrite Eloop; case: (run_loop_of Xclip V) => [ls|e] //=.
split=> // le_th _ _ [<-] [<-]; rewrite !size_get_prediction Esc; split=> // i.
exact: get_prediction_mono.
Qed.

(** X12. Two detectors that differ in threshold (and in the labels of
    their last call) only hold the same statistics and scores after any
    run of batches, raise the same exceptions, and the one with the
    higher threshold flags no row the other does not flag. *)
Theorem threshold_only_affects_labels (batches : seq (seq 'rV[F]_p))
    X self1 self2 :
  statistics self1 = statistics self2 -> threshold self1 <= threshold self2 ->
  [/\ statistics (process_all eigh sqrt batches self1)
      = statistics (process_all eigh sqrt batches self2),
      forall e, (_get_preds eigh sqrt X self1).1 = Raise e <->
                (_get_preds eigh sqrt X self2).1 = Raise e
    & forall l1 l2,
        (_get_preds eigh sqrt X self1).1 = Ok l1 ->
        (_get_preds eigh sqrt X self2).1 = Ok l2 ->
        size l1 = size l2 /\ forall i, (nth 0 l2 i <= nth 0 l1 i)%N].
Proof.
move=> same le_th; have [_ same_raise labels] := call_same_statistics X same.
split=> //; last exact: labels.
elim: batches self1 self2 same {le_th same_raise labels} => [|Y bs IH] s1 s2 same //=.
by apply: IH; have [] := call_same_statistics Y same.
Qed.

(* --------------------------------------------------------------------- *)
(* The scores against the Mahalanobis distance                            *)
(* --------------------------------------------------------------------- *)





(* --------------------------------------------------------------------- *)
(* The cap at one row and the batches of one row                         *)
(* --------------------------------------------------------------------- *)

(** X14. With max_n = 1, once a row was absorbed: a call on two rows or
    more whose pre-batch projected covariance passes the determinant
    test at row 0 raises ZeroDivisionError (the rescale of row 1 divides
    by n + i - 2 = 0) and leaves the object as it was. *)
Theorem cap_one_divides_by_zero self X Xclip (V : 'M[F]_(p, n_comp self)) :
  max_n self = 1 -> (0 < n self)%N ->
  get_Xclip self X = Ok Xclip ->
  eigh (n_comp self) (eigvals_range p (n_comp self))
      (cov_batch_of self Xclip) = Ok V ->
  EPSILON F < `|\det (get_proj_cov (C self) V)| ->
  (2 <= size X)%N ->
  _get_preds eigh sqrt X self = (Raise ZeroDivisionError, self).
Proof.
move=> max1 n_gt0 EX EV det_gt ge2.
have n0_1 : effective_n self = 1.
  rewrite /effective_n max1 /=; apply/min_idPr.
  by rewrite -[1]/(1%:Z) lez_nat.
have seed : seed_row (effective_n self) (inv_B_of Xclip V)
              (get_proj_cov (C self) V) 0.
  by rewrite /seed_row /= det_gt.
have lt_sz : (1 < size (inv_B_of Xclip V))%N.
  by rewrite size_inv_B_of (size_get_Xclip EX).
have run : run_loop_of Xclip V = Raise ZeroDivisionError.
  by apply: seed_at_one_raises seed _ lt_sz; rewrite n0_1.
rewrite _get_predsE EX EV run.
by case: (size X) ge2.
Qed.

(** X15. While the detector holds the sample statistics of the rows xs it
    absorbed (no cap, no clipping), a call on a single row that returns
    leaves the sample mean of all the rows, but the covariance with
    divisor n + 1, the number of rows: n/(n+1) times the sample
    covariance. *)
Theorem single_row_batch_divides_by_n_plus_one self xs (x : 'rV[F]_p)
    preds self' :
  tracks self xs -> max_n self <= 0 -> (n self)%:Z <= start_clip self ->
  _get_preds eigh sqrt [:: x] self = (Ok preds, self') ->
  [/\ mean self' = sample_mean (rcons xs x),
      C_val self' = ((size xs)%:R + 1)^-1 *: scatter (rcons xs x)
    & C_val self'
      = ((size xs)%:R / ((size xs)%:R + 1)) *: sample_cov (rcons xs x)].
Proof.
move=> trk uncapped le_n call.
have ret : is_ok (_get_preds eigh sqrt [:: x] self).1 by rewrite call.
have [n_xs mean_xs C_xs] := trk.
have mean' := call_tracks_mean n_xs mean_xs uncapped le_n ret.
rewrite call /= cats1 in mean'.
have C' : C_val self' = ((size xs)%:R + 1)^-1 *: scatter (rcons xs x).
  move: call; rewrite _get_predsE (unclipped _ le_n) /=.
  case: (eigh _ _ _) => [V|e2] //.
  case: (run_loop_of [:: x] V) => [ls|e] //= [_ <-].
  rewrite /C_val /= /cov_batch_of (effective_n_uncapped uncapped).
  by rewrite n_xs mean_xs C_xs cov_batch_scatter /= cats1.
split=> //; rewrite C' sample_covE size_rcons -natr1 addrK scalerA.
have [->|xs_neq0] := eqVneq xs [::].
  by rewrite /= mul0r -[[:: x]]/(rcons [::] x) scatter1 !scaler0.
by rewrite mulrAC divff ?mul1r // pnatr_eq0 size_eq0.
Qed.

(* --------------------------------------------------------------------- *)
(* Calls that raise                                                       *)
(* --------------------------------------------------------------------- *)

Lemma not_ok_leaves_state X self :
  is_ok (_get_preds eigh sqrt X self).1 = false ->
  (_get_preds eigh sqrt X self).2 = self.
Proof.
case E: (_get_preds eigh sqrt X self).1 => [preds|e] // _.
exact: raise_leaves_state E.
Qed.

(** X16. A call that raises is a no-op of a run: the run without the
    batches whose call raised ends with the same object, all its calls
    return, and its rows are the rows absorbed. *)
Theorem raising_calls_are_noops (batches : seq (seq 'rV[F]_p)) self :
  [/\ process_all eigh sqrt (returned eigh sqrt batches self) self
      = process_all eigh sqrt batches self,
      all_return eigh sqrt (returned eigh sqrt batches self) self
    & flatten (returned eigh sqrt batches self)
      = absorbed eigh sqrt batches self].
Proof.
elim: batches self => [|X batches IH] self //=.
case ret: (is_ok _) => /=.
  by have [-> -> ->] := IH (_get_preds eigh sqrt X self).2; rewrite ret.
by rewrite (not_ok_leaves_state ret).
Qed.

(** X17. A detector constructed with a negative start_clip never leaves
    its initial state: every call, on any batch, raises TypeError
    (self.clip is None and is subscripted). *)
Theorem negative_start_clip_raises (th : F) nc ns (sc mx : int) self0 self X :
  init p th nc ns sc mx = Ok self0 -> sc < 0 ->
  reachable eigh sqrt self0 self ->
  self = self0 /\ _get_preds eigh sqrt X self = (Raise TypeError, self).
Proof.
move=> init0 sc_lt0.
have raises Y : _get_preds eigh sqrt Y self0 = (Raise TypeError, self0).
  by case: init0 => <-; rewrite _get_predsE /get_Xclip /= sc_lt0.
have eq0 : reachable eigh sqrt self0 self -> self = self0.
  by elim=> [|s Y _ ->] //; rewrite raises.
by move=> /eq0 ->; split.
Qed.

(* --------------------------------------------------------------------- *)
(* The claims                                                             *)
(* --------------------------------------------------------------------- *)

(** C5 (amended). In every state reached by a detector constructed with
    start_clip >= 0, clip is None if and only if n <= start_clip; when n
    exceeds start_clip the bounds exist and the incoming batch is clamped
    to them entry by entry, minimum(maximum(x, lo), hi); when
    n <= start_clip the batch is taken as it is. At n = 0 there are no
    bounds and nothing is clamped, whatever start_clip is: the batch is
    taken as it is when start_clip >= 0, and the call raises TypeError
    when start_clip < 0. *)
Theorem clip_bounds_invariant (th : F) nc ns (sc mx : int) self0 self X :
  init p th nc ns sc mx = Ok self0 ->
  reachable eigh sqrt self0 self ->
  [/\ 0 <= sc -> (clip self = None <-> (n self)%:Z <= start_clip self),
      0 <= sc -> start_clip self < (n self)%:Z ->
        exists lo hi,
          [/\ clip self = Some (lo, hi),
              get_Xclip self X = Ok (np_clip X lo hi),
              size (np_clip X lo hi) = size X
            & forall i j, (i < size X)%N ->
                nth 0 (np_clip X lo hi) i 0 j
                = Num.min (Num.max (nth 0 X i 0 j) (lo 0 j)) (hi 0 j)],
      (n self)%:Z <= start_clip self -> get_Xclip self X = Ok X
    & n self = 0%N ->
        clip self = None
        /\ get_Xclip self X
           = if start_clip self < 0 then Raise TypeError else Ok X].
Proof.
move=> init0 reach; split.
- move=> sc_ge0; have inv := clip_reachable sc_ge0 init0 reach.
  by rewrite leNgt -inv; case: (clip self) => [c|] /=; split.
- move=> sc_ge0 lt_n; have := clip_reachable sc_ge0 init0 reach.
  rewrite /get_Xclip lt_n.
  case: (clip self) => [[lo hi]|] // _; exists lo, hi; split=> //.
    exact: size_np_clip.
  by move=> i j lt_i; rewrite /np_clip (nth_map 0) // mxE.
- exact: unclipped.
- move=> n0; have clip0 := clip_none_at_zero init0 reach n0.
  by rewrite /get_Xclip clip0 n0.
Qed.

(** C6. In a call that returns, row i is labelled 1 (outlier) if and only
    if its score is strictly greater than threshold; a score equal to
    threshold gives label 0 and a greater score gives label 1. *)
Theorem label_iff_score_above_threshold self X preds self' :
  _get_preds eigh sqrt X self = (Ok preds, self') ->
  [/\ size preds = size X, size (score self') = size X,
      prediction self' = preds
    & forall i, (i < size X)%N ->
      [/\ (nth 0%N preds i == 1%N) = (threshold self < nth 0 (score self') i),
          nth 0 (score self') i = threshold self -> nth 0%N preds i = 0%N
        & threshold self < nth 0 (score self') i -> nth 0%N preds i = 1%N]].
Proof.
rewrite _get_predsE.
case: (get_Xclip self X) => [Xclip|e1] //.
case EnX: (size X) => [|nb] //.
case: (eigh _ _ _) => [V|e2] //.
case: (run_loop_of Xclip V) => [ls|e] //= [<- <-] /=.
set sc := score_of _ _ _ _.
have sz : size sc = size X by rewrite size_score_of.
rewrite size_get_prediction sz EnX; split=> // i lt_i.
rewrite /get_prediction (nth_map 0) ?sz ?EnX //.
by split; [case: ifP | move->; rewrite ltxx | move->].
Qed.

(** C7. The n of every update formula is min(self.n, max_n) when max_n is
    positive and self.n otherwise (the default -1 included): in a call
    that returns, the new mean, the new covariance, the increments and
    rescalings of the inverse loop and the scores are the formulas taken
    at that value. *)
Theorem effective_n_used self X preds self' :
  let N := if 0 < max_n self then Num.min (n self)%:Z (max_n self)
           else (n self)%:Z in
  [/\ effective_n self = N,
      max_n self = -1 -> N = (n self)%:Z,
      0 < max_n self -> N = Num.min (n self)%:Z (max_n self)
    & _get_preds eigh sqrt X self = (Ok preds, self') ->
      exists Xclip V ls,
        [/\ get_Xclip self X = Ok Xclip,
            eigh (n_comp self) (eigvals_range p (n_comp self))
              (cov_batch (mean self) (C_val self) N Xclip)
              = Ok V,
            run_loop N
              (inv_B N (project V Xclip)
                 (project V (new_means_offset (mean self) N Xclip)))
              (get_proj_cov (C self) V) = Ok ls
          & [/\ mean self' = last (mean self) (new_means (mean self) N Xclip),
                C self' = Some (cov_batch (mean self) (C_val self) N Xclip)
              & score self'
                = get_score
                    (rows_sub (project V X)
                       (project V (new_means_offset (mean self) N Xclip)))
                    (all_C_inv ls)]]].
Proof.
move=> N; split=> //; rewrite {}/N.
- by move=> ->.
- by move=> ->.
rewrite -/(effective_n self) _get_predsE.
case E1: (get_Xclip self X) => [Xclip|e1] //.
case EnX: (size X) => [|nb] //.
case E2: (eigh _ _ _) => [V|e2] //.
case E3: (run_loop_of Xclip V) => [ls|e] //= [_ <-] /=.
by exists Xclip, V, ls.
Qed.

(* A failing eigendecomposition ends the call with its exception. *)
Lemma eigh_failure_raises self X Xclip e :
  get_Xclip self X = Ok Xclip -> X != [::] ->
  eigh (n_comp self) (eigvals_range p (n_comp self))
      (cov_batch_of self Xclip) = Raise e ->
  _get_preds eigh sqrt X self = (Raise e, self).
Proof.
move=> E1 nonempty E2; rewrite _get_predsE E1 E2.
by case: X nonempty {E1}.
Qed.

(** C9. A call that ends with the error of the eigendecomposition
    (LinAlgError, or ValueError on non-finite values; any exception in
    fact) leaves mean, C, n and clip (the whole object) as they were
    before the call. *)
Theorem numerical_error_leaves_state self X e :
  (_get_preds eigh sqrt X self).1 = Raise e ->
  let self' := (_get_preds eigh sqrt X self).2 in
  [/\ mean self' = mean self, C self' = C self, n self' = n self,
      clip self' = clip self
    & self' = self].
Proof. by move/raise_leaves_state => /= ->. Qed.

(** C10. A row that is processed while no inverse has been produced keeps
    the zero matrix in all_C_inv, its score is 0, and with a positive
    threshold its label is 0. *)
Theorem no_inverse_row_scores_zero self X Xclip V ls i :
  get_Xclip self X = Ok Xclip ->
  eigh (n_comp self) (eigvals_range p (n_comp self))
      (cov_batch_of self Xclip) = Ok V ->
  run_loop_of Xclip V = Ok ls ->
  (i < size X)%N ->
  no_inverse_upto (effective_n self) (inv_B_of Xclip V)
                  (get_proj_cov (C self) V) i ->
  exists preds,
    [/\ (_get_preds eigh sqrt X self).1 = Ok preds,
        nth 0 (all_C_inv ls) i = 0,
        nth 0 (score (_get_preds eigh sqrt X self).2) i = 0
      & 0 < threshold self -> nth 0%N preds i = 0%N].
Proof.
move=> E1 E2 E3 lt_i no_inv.
have sz := size_get_Xclip E1.
have zero_i : nth 0 (all_C_inv ls) i = 0.
  apply: no_inverse_zero E3 no_inv.
  by rewrite /inv_B_of /inv_B size_mkseq size_map sz.
have sc_i : nth 0 (score_of X Xclip V (all_C_inv ls)) i = 0.
  rewrite /score_of /get_score nth_mkseq ?size_mkseq ?size_map //=.
  by rewrite zero_i mul0mx mulmx0 mxE.
rewrite _get_predsE E1 E2 E3.
case: (size X) lt_i (size_score_of X Xclip V (all_C_inv ls)) => // nb lt_i sz_sc.
eexists; split; [by [] | by [] | by [] | move=> th_gt0 ].
by rewrite /get_prediction (nth_map 0) ?sz_sc // sc_i ltNge ltW.
Qed.

End Theory.

(* ===================================================================== *)
(* One feature: matrices are scalars                                      *)
(* ===================================================================== *)
Section Scalar.
Variable F : realFieldType.
Implicit Types a b c : F.

Lemma smxD a b : (a%:M : 'M[F]_1) + b%:M = (a + b)%:M.
Proof. by rewrite raddfD. Qed.
Lemma smxB a b : (a%:M : 'M[F]_1) - b%:M = (a - b)%:M.
Proof. by rewrite raddfB. Qed.
Lemma smxN a : - (a%:M : 'M[F]_1) = (- a)%:M.
Proof. by rewrite raddfN. Qed.
Lemma smxZ c a : c *: (a%:M : 'M[F]_1) = (c * a)%:M.
Proof. exact: scale_scalar_mx. Qed.
Lemma smxM a b : (a%:M : 'M[F]_1) *m b%:M = (a * b)%:M.
Proof. by rewrite -scalar_mxM. Qed.
Lemma smxT a : (a%:M : 'M[F]_1)^T = a%:M.
Proof. exact: tr_scalar_mx. Qed.
Lemma smx0 : (0 : 'M[F]_1) = 0%:M.
Proof. by rewrite raddf0. Qed.
Lemma smx_const a : (const_mx a : 'M[F]_1) = a%:M.
Proof. by apply/matrixP=> i j; rewrite !mxE !ord1 eqxx mulr1n. Qed.
Lemma smx_det a : \det (a%:M : 'M[F]_1) = a.
Proof. exact: det_scalar1. Qed.
Lemma smx_inv a : invmx (a%:M : 'M[F]_1) = (a^-1)%:M.
Proof. exact: invmx_scalar. Qed.
Lemma smx_tr a : \tr (a%:M : 'M[F]_1) = a.
Proof. by rewrite mxtrace_scalar mulr1n. Qed.
Lemma smx_entry a : (a%:M : 'M[F]_1) 0 0 = a.
Proof. by rewrite mxE eqxx mulr1n. Qed.
Lemma smx_inj a b : a%:M = b%:M :> 'M[F]_1 -> a = b.
Proof. by move/(congr1 (fun A : 'M[F]_1 => A 0 0)); rewrite !smx_entry. Qed.

End Scalar.

Ltac scalar_form :=
  rewrite /C_val /row1 /effective_n /=;
  repeat (rewrite ?smx0 ?(smxD, smxB, smxN, smxZ, smxM, smxT, smx_det,
                          smx_inv, smx_tr, smx_entry, smx_const)).


(* ===================================================================== *)
(* Runs on concrete batches                                               *)
(* ===================================================================== *)
Lemma fed_one_by_one_state :
  [/\ n fed_one_by_one = 2%N, clip fed_one_by_one = None,
      mean fed_one_by_one = 1%:M & C fed_one_by_one = Some 1%:M].
Proof.
rewrite /fed_one_by_one /=.
have [||sc1 [pr1 ->]] //= :=
  @single_row_state _ _ eigh1 sqrtq fresh (row1 0) (const_mx 1).
set st1 := Detector _ _ _ _ _ _ _ _ _ _ _.
have [||sc2 [pr2 ->]] //= :=
  @single_row_state _ _ eigh1 sqrtq st1 (row1 2) (const_mx 1).
split=> //; first by scalar_form; congr (_%:M); apply/eqP.
rewrite cov_batch_single /C_val /= cov_batch_single; scalar_form.
by congr (Some _%:M); apply/eqP.
Qed.

Ltac unfold_moments :=
  rewrite /cov_batch /cov_B /new_means_offset /new_means /roll_partial_means
          /nplus /max1 /mkseq /= ?big_cons ?big_nil.

Lemma sample_mean_two_points : sample_mean two_points = 1%:M.
Proof.
rewrite /sample_mean /two_points /= !big_cons big_nil; scalar_form.
by congr (_%:M); apply/eqP.
Qed.

Lemma sample_cov_two_points : sample_cov two_points = 2%:M.
Proof.
rewrite /sample_cov sample_mean_two_points /two_points /= !big_cons big_nil.
by scalar_form; congr (_%:M); apply/eqP.
Qed.

Lemma fed_at_once_state :
  [/\ n fed_at_once = 2%N, clip fed_at_once = None,
      mean fed_at_once = 1%:M & C fed_at_once = Some 2%:M].
Proof.
rewrite /fed_at_once /two_points /=.
rewrite (@two_row_first_call _ _ eigh1 sqrtq fresh _ _ (const_mx 1)) //=.
split=> //.
  by unfold_moments; scalar_form; congr (_%:M); apply/eqP.
by unfold_moments; scalar_form; congr (Some _%:M); apply/eqP.
Qed.

Lemma seed_state_reached :
  _get_preds eigh1 sqrtq two_points fresh_cap1 = (Ok [:: 0%N; 0%N], seed_state).
Proof.
rewrite /two_points.
rewrite (@two_row_first_call _ _ eigh1 sqrtq fresh_cap1 _ _ (const_mx 1)) //.
rewrite /seed_state /=; unfold_moments; scalar_form.
by congr (_, Detector _ _ _ _ _ _ _%:M (Some _%:M) _ _ _); apply/eqP.
Qed.

Lemma seed_state_seed_row :
  seed_row (effective_n seed_state) (inv_B_of two_points seed_V)
           (get_proj_cov (C seed_state) seed_V) 0.
Proof.
rewrite /seed_row /= /seed_V; scalar_form.
by apply: lt_le_trans (EPSILON_lt1 _) _.
Qed.

Lemma seed_state_run_cov1 :
  run_cov (effective_n seed_state) (inv_B_of two_points seed_V)
          (get_proj_cov (C seed_state) seed_V) 1 = (2^-1)%:M.
Proof.
rewrite /= /inv_B_of /inv_B /means_offset_of /two_points /seed_V /mkseq /=.
unfold_moments; scalar_form.
by congr (_%:M); apply/eqP.
Qed.

Lemma seed_state_raises :
  _get_preds eigh1 sqrtq two_points seed_state
  = (Raise ZeroDivisionError, seed_state).
Proof.
rewrite _get_predsE /get_Xclip /= /eigh1.
rewrite /run_loop_of /run_loop /= {1}/inv_step /=; scalar_form.
have -> : EPSILON rat < `|1 * (2 * 1)| by apply: lt_le_trans (EPSILON_lt1 _) _.
by [].
Qed.

Lemma warm_state_reached :
  _get_preds eigh1 sqrtq two_points fresh = (Ok [:: 0%N; 0%N], warm_state).
Proof.
rewrite /two_points.
rewrite (@two_row_first_call _ _ eigh1 sqrtq fresh _ _ (const_mx 1)) //.
rewrite /warm_state /=; unfold_moments; scalar_form.
by congr (_, Detector _ _ _ _ _ _ _%:M (Some _%:M) _ _ _); apply/eqP.
Qed.

Lemma warm_state_reachable : reachable eigh1 sqrtq fresh warm_state.
Proof.
have := reach_call two_points (reach_init eigh1 sqrtq fresh).
by rewrite warm_state_reached.
Qed.


Lemma fresh_cov_inv : cov_inv fresh.
Proof. exact: (@cov_inv_init _ _ 25%:R 3 3%:R 50%:Z (-1)). Qed.

Lemma warm_cov_inv : cov_inv warm_state.
Proof.
exact: (@cov_inv_reachable _ _ eigh1 sqrtq 25%:R 3 3%:R 50%:Z (-1) fresh _
          (erefl _) warm_state_reachable).
Qed.

Lemma split_runs_return :
  all_return eigh1 sqrtq [:: two_points; two_points] fresh
  /\ all_return eigh1 sqrtq [:: four_points] fresh.
Proof.
split; rewrite /= ?andbT.
  rewrite warm_state_reached /=.
  by rewrite (@call_is_ok _ _ eigh1 sqrtq warm_state two_points two_points
                (const_mx 1)) //; apply: warm_cov_inv.
by rewrite (@call_is_ok _ _ eigh1 sqrtq fresh four_points four_points
              (const_mx 1)) //; apply: fresh_cov_inv.
Qed.

(** C1. The claim, mean and C equal to the sample mean and the sample
    covariance after every call for any batch sizes, evaluated on two
    calls of one row each (0 then 2, default constructor, no cap, no
    clipping): the mean is the sample mean 1, but C is 1 where the sample
    covariance is 2. *)
Theorem single_row_batches_miss_sample_covariance :
  [/\ n fed_one_by_one = 2%N,
      mean fed_one_by_one = sample_mean two_points,
      sample_cov two_points = 2%:M,
      C fed_one_by_one = Some 1%:M
    & C fed_one_by_one <> Some (sample_cov two_points)].
Proof.
have [-> _ -> ->] := fed_one_by_one_state.
rewrite sample_mean_two_points sample_cov_two_points; split=> //.
by case=> /smx_inj.
Qed.

(** C2. The claim, the same final covariance for every split of the
    observations into batches, evaluated on the observations 0 and 2:
    fed in one batch they leave C = 2, fed in two batches of one row they
    leave C = 1, and clipping is inactive in both runs. *)
Theorem batch_split_changes_covariance :
  [/\ C fed_at_once = Some 2%:M, C fed_one_by_one = Some 1%:M,
      C fed_at_once <> C fed_one_by_one,
      clip fed_at_once = None
    & clip fed_one_by_one = None].
Proof.
have [_ -> _ ->] := fed_at_once_state.
have [_ -> _ ->] := fed_one_by_one_state.
by split=> //; case=> /smx_inj.
Qed.

(** C3. The claim, the emitted inverse equal to the direct inverse after
    the seed row, evaluated on CoreMahalanobis(max_n=1) with one feature:
    a first call on the rows 0 and 2 leaves C = 2 and n = 2; in the next
    call the effective n is 1, row 0 produces the seed, the running
    covariance before row 1 is 1/2, with direct inverse 2, and the rescale
    (n+i-1)/(n+i-2) of row 1 divides by zero: the call raises. *)
Theorem rescale_divides_by_zero_after_seed :
  [/\ _get_preds eigh1 sqrtq two_points fresh_cap1
        = (Ok [:: 0%N; 0%N], seed_state),
      effective_n seed_state = 1,
      seed_row (effective_n seed_state) (inv_B_of two_points seed_V)
               (get_proj_cov (C seed_state) seed_V) 0,
      run_cov (effective_n seed_state) (inv_B_of two_points seed_V)
              (get_proj_cov (C seed_state) seed_V) 1 \in unitmx
      /\ direct_inverse (effective_n seed_state)
           (inv_B_of two_points seed_V)
           (get_proj_cov (C seed_state) seed_V) 1 = 2%:M
    & _get_preds eigh1 sqrtq two_points seed_state
        = (Raise ZeroDivisionError, seed_state)].
Proof.
split; first exact: seed_state_reached.
- by [].
- exact: seed_state_seed_row.
- rewrite /direct_inverse seed_state_run_cov1 smx_inv invrK.
  by rewrite unitmxE smx_det.
exact: seed_state_raises.
Qed.

(* ===================================================================== *)
(* The constructor and the eigendecomposition                             *)
(* ===================================================================== *)

(** C8 (amended). The constructor validates nothing: for every value of
    its five arguments it returns a detector holding them, with clip None,
    mean 0, C the integer 0 and n = 0. *)
Theorem init_stores_arguments (F : realFieldType) (p : nat)
    (th : F) (nc : nat) (ns : F) (sc mx : int) :
  init p th nc ns sc mx
  = Ok {| threshold := th; n_components := nc; max_n := mx; n_stdev := ns;
          start_clip := sc; clip := None; mean := 0; C := None; n := 0;
          score := [::]; prediction := [::] |}.
Proof. by []. Qed.

(* C8, as stated, fails: n_components = 0, n_stdev = 0, start_clip = -1
   and max_n = 0 are accepted. *)
Lemma init_accepts_invalid_arguments :
  is_ok (init 1 (25%:R : rat) 0 0 (-1) 0)
  /\ init 1 (25%:R : rat) 0 0 (-1) 0 <> Raise ConfigurationError.
Proof. by []. Qed.

(** C4 (amended). The eigendecomposition is computed on cov_batch, the
    covariance already updated with the incoming (clamped) batch, which
    the call then stores as C, with the index range (p-k, p-1),
    k = min(n_components, p): the last k of the p indices of the
    ascending order, the eigenvectors of largest eigenvalue. A call
    depends on eigh only through its result for that range and that
    matrix. The pre-batch covariance (zeros while it is the integer 0),
    the raw and the clamped rows and the per-row means are projected on
    the basis returned, and the inverse loop and the scores are computed
    from these projections. *)
Theorem eigh_on_cov_batch (F : realFieldType) (p : nat)
    (eigh eigh' :
       forall k : nat, int * int -> 'M[F]_p -> result 'M[F]_(p, k))
    (sqrt : F -> F) (self : detector F p) (X Xclip : seq 'rV[F]_p) :
  get_Xclip self X = Ok Xclip ->
  [/\ eigh (n_comp self) (p%:Z - (n_comp self)%:Z, p%:Z - 1)
        (cov_batch_of self Xclip)
      = eigh' (n_comp self) (p%:Z - (n_comp self)%:Z, p%:Z - 1)
          (cov_batch_of self Xclip) ->
      _get_preds eigh sqrt X self = _get_preds eigh' sqrt X self,
      [/\ n_comp self = minn (n_components self) p,
          (eigvals_range p (n_comp self)).2 = p%:Z - 1,
          (eigvals_range p (n_comp self)).2
            - (eigvals_range p (n_comp self)).1 + 1 = (n_comp self)%:Z
        & 0 <= (eigvals_range p (n_comp self)).1]
    & forall preds self',
        _get_preds eigh sqrt X self = (Ok preds, self') ->
        exists V ls,
          [/\ eigh (n_comp self) (p%:Z - (n_comp self)%:Z, p%:Z - 1)
                (cov_batch_of self Xclip) = Ok V,
              C self' = Some (cov_batch_of self Xclip),
              run_loop (effective_n self)
                (inv_B (effective_n self)
                   [seq x *m V | x <- Xclip]
                   [seq m *m V | m <- means_offset_of self Xclip])
                (if C self is Some c then V^T *m (c *m V) else 0) = Ok ls
            & score self'
              = get_score
                  (rows_sub [seq x *m V | x <- X]
                     [seq m *m V | m <- means_offset_of self Xclip])
                  (all_C_inv ls)]].
Proof.
move=> E1; split.
- by move=> E2; rewrite !_get_predsE E1 /eigvals_range E2.
- split=> //; rewrite /eigvals_range /=; first by ring.
  by rewrite subr_ge0 lez_nat /n_comp geq_minr.
move=> preds self'; rewrite _get_predsE E1.
case EnX: (size X) => [|nb] //.
case E2: (eigh _ _ _) => [V|e2] //.
case E3: (run_loop_of Xclip V) => [ls|e] //= [_ <-] /=.
by exists V, ls.
Qed.

Lemma smx_eq (F : realFieldType) (a b : F) :
  (a%:M == b%:M :> 'M[F]_1) = (a == b).
Proof.
by apply/eqP/eqP => [/smx_inj|->].
Qed.

Lemma cov_batch_two_points : cov_batch_of fresh two_points = 2%:M.
Proof.
rewrite /cov_batch_of /two_points; unfold_moments; scalar_form.
by congr (_%:M); apply/eqP.
Qed.

(* C4, as stated, fails: on the first call of a detector, with the rows 0
   and 2, the pre-batch covariance is the zero matrix and the matrix eigh
   receives is cov_batch = 2; two eigendecompositions that agree on the
   pre-batch covariance give different calls. *)
Lemma eigh_not_on_prebatch_covariance :
  [/\ C_val fresh = 0, cov_batch_of fresh two_points = 2%:M,
      eigh1 (n_comp fresh) (eigvals_range 1 (n_comp fresh)) (C_val fresh)
        = eigh_only_at (C_val fresh) (n_comp fresh)
            (eigvals_range 1 (n_comp fresh)) (C_val fresh)
    & _get_preds eigh1 sqrtq two_points fresh
      <> _get_preds (eigh_only_at (C_val fresh)) sqrtq two_points fresh].
Proof.
split=> //; first exact: cov_batch_two_points.
  by rewrite /eigh_only_at eqxx.
rewrite (@two_row_first_call _ _ eigh1 sqrtq fresh _ _ (const_mx 1)) //.
rewrite (@eigh_failure_raises _ _ _ sqrtq fresh two_points two_points
           LinAlgError) //.
by rewrite /eigh_only_at cov_batch_two_points /C_val /= smx0 smx_eq.
Qed.

Lemma eigh_on_cov_batch_witness :
  [/\ eigh1 (n_comp fresh) (1 - (n_comp fresh)%:Z, 1 - 1)
        (cov_batch_of fresh two_points)
      = eigh_only_for (0, 0) (n_comp fresh) (1 - (n_comp fresh)%:Z, 1 - 1)
          (cov_batch_of fresh two_points) ->
      _get_preds eigh1 sqrtq two_points fresh
      = _get_preds (eigh_only_for (0, 0)) sqrtq two_points fresh,
      [/\ n_comp fresh = minn (n_components fresh) 1,
          (eigvals_range 1 (n_comp fresh)).2 = 1 - 1,
          (eigvals_range 1 (n_comp fresh)).2
            - (eigvals_range 1 (n_comp fresh)).1 + 1 = (n_comp fresh)%:Z
        & 0 <= (eigvals_range 1 (n_comp fresh)).1]
    & forall preds self',
        _get_preds eigh1 sqrtq two_points fresh = (Ok preds, self') ->
        exists V ls,
          [/\ eigh1 (n_comp fresh) (1 - (n_comp fresh)%:Z, 1 - 1)
                (cov_batch_of fresh two_points) = Ok V,
              C self' = Some (cov_batch_of fresh two_points),
              run_loop (effective_n fresh)
                (inv_B (effective_n fresh)
                   [seq x *m V | x <- two_points]
                   [seq m *m V | m <- means_offset_of fresh two_points])
                (if C fresh is Some c then V^T *m (c *m V) else 0) = Ok ls
            & score self'
              = get_score
                  (rows_sub [seq x *m V | x <- two_points]
                     [seq m *m V | m <- means_offset_of fresh two_points])
                  (all_C_inv ls)]].
Proof.
exact: (@eigh_on_cov_batch _ _ eigh1 (eigh_only_for (0, 0)) sqrtq fresh
          two_points two_points (erefl _)).
Defined.

(* The call asks eigh for the index range (p-k, p-1) and no other: an
   eigendecomposition that returns for that range only serves the call
   as well as one that returns for every range, and one that returns for
   another range only makes the call raise. *)
Lemma eigh_range_asked :
  _get_preds (eigh_only_for (0, 0)) sqrtq two_points fresh
  = _get_preds eigh1 sqrtq two_points fresh
  /\ _get_preds (eigh_only_for (1, 1)) sqrtq two_points fresh
     = (Raise ValueError, fresh).
Proof.
split; first by rewrite !_get_predsE.
by rewrite (@eigh_failure_raises _ _ _ sqrtq fresh two_points two_points
              ValueError).
Qed.

(* ===================================================================== *)
(* The general statements at concrete runs                                *)
(* ===================================================================== *)

Lemma label_iff_score_above_threshold_witness :
  [/\ size [:: 0%N; 0%N] = size two_points,
      size (score seed_state) = size two_points,
      prediction seed_state = [:: 0%N; 0%N]
    & forall i, (i < size two_points)%N ->
      [/\ (nth 0%N [:: 0%N; 0%N] i == 1%N)
            = (threshold fresh_cap1 < nth 0 (score seed_state) i),
          nth 0 (score seed_state) i = threshold fresh_cap1 ->
            nth 0%N [:: 0%N; 0%N] i = 0%N
        & threshold fresh_cap1 < nth 0 (score seed_state) i ->
            nth 0%N [:: 0%N; 0%N] i = 1%N]].
Proof.
apply: (@label_iff_score_above_threshold _ _ eigh1 sqrtq fresh_cap1).
exact: seed_state_reached.
Defined.

Lemma effective_n_used_witness :
  effective_n seed_state = 1
  /\ exists Xclip V ls,
       [/\ get_Xclip fresh_cap1 two_points = Ok Xclip,
           eigh1 (n_comp fresh_cap1) (eigvals_range 1 (n_comp fresh_cap1))
             (cov_batch (mean fresh_cap1) (C_val fresh_cap1) 0 Xclip) = Ok V,
           run_loop 0
             (inv_B 0 (project V Xclip)
                (project V (new_means_offset (mean fresh_cap1) 0 Xclip)))
             (get_proj_cov (C fresh_cap1) V) = Ok ls
         & [/\ mean seed_state
                 = last (mean fresh_cap1) (new_means (mean fresh_cap1) 0 Xclip),
               C seed_state
                 = Some (cov_batch (mean fresh_cap1) (C_val fresh_cap1) 0 Xclip)
             & score seed_state
               = get_score
                   (rows_sub (project V two_points)
                      (project V (new_means_offset (mean fresh_cap1) 0 Xclip)))
                   (all_C_inv ls)]].
Proof.
have [eq_n _ _ _] :=
  @effective_n_used _ _ eigh1 sqrtq seed_state two_points [::] seed_state.
have [_ _ _ run] :=
  @effective_n_used _ _ eigh1 sqrtq fresh_cap1 two_points [:: 0%N; 0%N]
    seed_state.
split; first by rewrite eq_n.
exact: (run seed_state_reached).
Defined.

Lemma numerical_error_leaves_state_witness :
  [/\ (_get_preds eigh_raises sqrtq two_points seed_state).1
      = Raise LinAlgError,
      (_get_preds eigh_raises sqrtq two_points seed_state).2 = seed_state,
      (_get_preds eigh_rejects sqrtq two_points seed_state).1
      = Raise ValueError
    & (_get_preds eigh_rejects sqrtq two_points seed_state).2 = seed_state].
Proof.
have raised :
    (_get_preds eigh_raises sqrtq two_points seed_state).1 = Raise LinAlgError.
  by rewrite (@eigh_failure_raises _ _ _ _ _ _ two_points LinAlgError).
have rejected :
    (_get_preds eigh_rejects sqrtq two_points seed_state).1 = Raise ValueError.
  by rewrite (@eigh_failure_raises _ _ _ _ _ _ two_points ValueError).
have [_ _ _ _ same1] :=
  @numerical_error_leaves_state _ _ eigh_raises sqrtq seed_state two_points
    LinAlgError raised.
have [_ _ _ _ same2] :=
  @numerical_error_leaves_state _ _ eigh_rejects sqrtq seed_state two_points
    ValueError rejected.
by split.
Defined.

Lemma no_inverse_row_scores_zero_witness :
  exists preds,
    [/\ (_get_preds eigh1 sqrtq [:: row1 2] fresh).1 = Ok preds,
        nth 0 (all_C_inv (LoopState None (0 : 'M[rat]_(n_comp fresh))
                            [:: 0])) 0 = 0,
        nth 0 (score (_get_preds eigh1 sqrtq [:: row1 2] fresh).2) 0 = 0
      & 0 < threshold fresh -> nth 0%N preds 0 = 0%N].
Proof.
have [run no_inv] :=
  @first_row_no_inverse _ _ fresh (row1 2) (const_mx 1) erefl erefl isT.
exact: (@no_inverse_row_scores_zero _ _ eigh1 sqrtq fresh [:: row1 2]
          [:: row1 2] (const_mx 1) _ 0 erefl erefl run isT no_inv).
Defined.

Lemma moments_are_sample_statistics_witness :
  tracks (process_all eigh1 sqrtq [:: two_points] fresh)
         (flatten [:: two_points]).
Proof.
apply: (@moments_are_sample_statistics _ _ eigh1 sqrtq 25%:R 3 3%:R 50%:Z
          (-1) fresh two_points [::]) => //.
rewrite /= andbT /two_points.
by rewrite (@two_row_first_call _ _ eigh1 sqrtq fresh _ _ (const_mx 1)).
Defined.


Lemma call_returns_unless_cap_one_witness :
  exists2 ls, run_loop_of two_points warm_V = Ok ls
    & _get_preds eigh1 sqrtq two_points warm_state
      = (Ok (get_prediction (threshold warm_state)
               (score_of two_points two_points warm_V (all_C_inv ls))),
         commit sqrtq two_points two_points warm_V (all_C_inv ls)).
Proof.
apply: (@call_returns_unless_cap_one _ _ eigh1 sqrtq 25%:R 3 3%:R 50%:Z (-1)
          fresh warm_state two_points two_points warm_V).
- by [].
- exact: warm_state_reachable.
- by [].
- by [].
- by [].
- by [].
- by [].
Defined.

Lemma batch_split_keeps_moments_witness :
  mean (process_all eigh1 sqrtq [:: two_points; two_points] fresh)
  = mean (process_all eigh1 sqrtq [:: four_points] fresh)
  /\ C_val (process_all eigh1 sqrtq [:: two_points; two_points] fresh)
     = C_val (process_all eigh1 sqrtq [:: four_points] fresh).
Proof.
have [ret1 ret2] := split_runs_return.
apply: (@batch_split_keeps_moments _ _ eigh1 sqrtq 25%:R 3 3%:R 50%:Z (-1)
          fresh two_points four_points [:: two_points] [::]) => //.
Defined.

(* --------------------------------------------------------------------- *)
(* Further runs                                                           *)
(* --------------------------------------------------------------------- *)

Lemma row1E (f : 'I_1 -> rat) : \row_j f j = (f 0)%:M :> 'rV[rat]_1.
Proof. by apply/rowP => j; rewrite !mxE !ord1 eqxx mulr1n. Qed.

Lemma sqrtq_one : sqrtq 1 = 1.
Proof. by apply/eqP. Qed.

Lemma cov_batch_three_points : cov_batch_of fresh_clip1 three_points = 1%:M.
Proof.
rewrite /cov_batch_of /three_points; unfold_moments; scalar_form.
by congr (_%:M); apply/eqP.
Qed.

Lemma three_points_B1 :
  nth 0 (@inv_B_of _ _ fresh_clip1 three_points (const_mx 1)) 1 = (2^-1)%:M.
Proof.
rewrite /inv_B_of /inv_B /means_offset_of /three_points /mkseq /=.
unfold_moments; scalar_form.
by congr (_%:M); apply/eqP.
Qed.

Lemma three_points_loop :
  @run_loop_of _ _ fresh_clip1 three_points (const_mx 1)
  = Ok (LoopState (Some 2%:M) (2^-1)%:M [:: 0; 0; 2%:M]).
Proof.
rewrite /run_loop_of /run_loop /loop_init size_inv_B_of.
move: three_points_B1; move: (inv_B_of _ _) => B B1.
rewrite /= inv_step_zero_cov //= inv_step_zero_cov //=.
rewrite B1 scaler0 add0r /inv_step /= smx_det.
have -> : EPSILON rat < `|2^-1| by apply: lt_le_trans (EPSILON_lt_half _) _.
by rewrite /= smx_inv invrK.
Qed.

Lemma clipping_state_reached :
  _get_preds eigh1 sqrtq three_points fresh_clip1
  = (Ok [:: 0%N; 0%N; 0%N], clipping_state).
Proof.
rewrite (@call_returns _ _ eigh1 sqrtq fresh_clip1 three_points three_points
           (const_mx 1) _ (erefl _) isT (erefl _) three_points_loop).
rewrite /clipping_state /commit /= cov_batch_three_points.
rewrite row1E smx_entry sqrtq_one /score_of /get_score /rows_sub /mkseq /=.
rewrite /means_offset_of; unfold_moments; scalar_form.
have e0 : (0 * 1 - 0) * (0 * (0 * 1 - 0)) = 0 :> rat by apply/eqP.
have e1 : (1 * 1 -
           (0 + 1 / ((0%Z + 0%Z)%:~R + 1) * (1^-1 * (0 * 1 - 0) - 0)) * 1) *
          (0 *
           (1 * 1 -
            (0 + 1 / ((0%Z + 0%Z)%:~R + 1) * (1^-1 * (0 * 1 - 0) - 0)) * 1))
          = 0 :> rat by apply/eqP.
have e2 : (2 * 1 -
           (0 + 2 / ((0%Z + 1%Z)%:~R + 1) * (2^-1 * (0 + (1 + 0)) - 0)) * 1) *
          (2 *
           (2 * 1 -
            (0 + 2 / ((0%Z + 1%Z)%:~R + 1) * (2^-1 * (0 + (1 + 0)) - 0)) * 1))
          = 9%:R / 2%:R :> rat by apply/eqP.
rewrite e0 e1 e2.
have -> : (25 < 0 :> rat) = false by [].
have -> : (25 < 9%:R / 2%:R :> rat) = false by [].
by congr (_, Detector _ _ _ _ _ (Some (_%:M, _%:M)) _%:M _ _ _ _); apply/eqP.
Qed.

Lemma clipping_state_reachable :
  reachable eigh1 sqrtq fresh_clip1 clipping_state.
Proof.
have := reach_call three_points (reach_init eigh1 sqrtq fresh_clip1).
by rewrite clipping_state_reached.
Qed.

Lemma warm_state_tracks : tracks warm_state two_points.
Proof.
by split; rewrite ?sample_mean_two_points ?sample_cov_two_points.
Qed.


Lemma mean_is_sample_mean_witness :
  n (process_all eigh1 sqrtq one_by_one fresh)
  = size (absorbed eigh1 sqrtq one_by_one fresh)
  /\ mean (process_all eigh1 sqrtq one_by_one fresh)
     = sample_mean (absorbed eigh1 sqrtq one_by_one fresh).
Proof.
exact: (@mean_is_sample_mean _ _ eigh1 sqrtq 25%:R 3 3%:R 50%:Z (-1) fresh
          one_by_one (erefl _) isT isT).
Defined.

Lemma mean_update_weighted_average_witness :
  exists2 Xclip, get_Xclip fresh two_points = Ok Xclip
    & ((effective_n fresh)%:~R + (size two_points)%:R) *: mean warm_state
      = (effective_n fresh)%:~R *: mean fresh + \sum_(x <- Xclip) x
      /\ forall j (a b : rat),
           a <= mean fresh 0 j <= b ->
           (forall x, x \in Xclip -> a <= x 0 j <= b) ->
           a <= mean warm_state 0 j <= b.
Proof.
exact: (@mean_update_weighted_average _ _ eigh1 sqrtq fresh two_points
          [:: 0%N; 0%N] warm_state warm_state_reached).
Defined.

Lemma clip_bounds_around_mean_witness :
  [/\ start_clip clipping_state < (n clipping_state)%:Z,
      row1 (-2%:R) = mean clipping_state - 3%:R *: stdev_of sqrtq clipping_state,
      row1 4%:R = mean clipping_state + 3%:R *: stdev_of sqrtq clipping_state,
      get_Xclip clipping_state far_points
      = Ok (np_clip far_points (row1 (-2%:R)) (row1 4%:R))
    & 0 <= (3%:R : rat) -> (forall x, 0 <= x -> 0 <= sqrtq x) ->
      forall i j, (i < size far_points)%N ->
        [/\ row1 (-2%:R) 0 j <= mean clipping_state 0 j <= row1 4%:R 0 j,
            row1 (-2%:R) 0 j
              <= nth 0 (np_clip far_points (row1 (-2%:R)) (row1 4%:R)) i 0 j
              <= row1 4%:R 0 j
          & row1 (-2%:R) 0 j <= nth 0 far_points i 0 j <= row1 4%:R 0 j ->
            nth 0 (np_clip far_points (row1 (-2%:R)) (row1 4%:R)) i 0 j
            = nth 0 far_points i 0 j]].
Proof.
exact: (@clip_bounds_around_mean _ _ eigh1 sqrtq 25%:R 3 3%:R 1 (-1)
          fresh_clip1 clipping_state (row1 (-2%:R)) (row1 4%:R) far_points
          (erefl _) clipping_state_reachable (erefl _)).
Defined.

Lemma covariance_invariants_witness :
  [/\ (C_val warm_state)^T = C_val warm_state,
      forall v : 'rV[rat]_1, 0 <= qform (C_val warm_state) v,
      forall j, 0 <= C_val warm_state j j,
      C warm_state = None <-> n warm_state = 0%N
    & (\rank (C_val warm_state) <= (n warm_state).-1)%N].
Proof.
exact: (@covariance_invariants _ _ eigh1 sqrtq 25%:R 3 3%:R 50%:Z (-1)
          fresh warm_state (erefl _) warm_state_reachable).
Defined.

(* The loop of the first call on triangle, before its third row: the first
   two rows find the zero matrix. *)
Lemma triangle_two_rows :
  inv_loop (effective_n fresh_plane) (inv_B_of triangle axes_V) (iota 0 2)
    (loop_init (inv_B_of triangle axes_V)
       (get_proj_cov (C fresh_plane) axes_V))
  = Ok (LoopState None
          (((nplus rat 0 1 - 1) / nplus rat 0 1) *: 0
           + nth 0 (inv_B_of triangle axes_V) 1)
          (nseq 3 0)).
Proof.
rewrite /loop_init (@effective_n0 _ _ fresh_plane) //=.
by rewrite inv_step_zero_cov //= inv_step_zero_cov.
Qed.

Lemma warm_up_covariance_singular_witness :
  [/\ (\rank (((nplus rat 0 1 - 1) / nplus rat 0 1) *: 0
              + nth 0 (inv_B_of triangle axes_V) 1)%R <= 1)%N,
      (\rank (((nplus rat 0 1 - 1) / nplus rat 0 1) *: 0
              + nth 0 (inv_B_of triangle axes_V) 1)%R < 2)%N,
      \det (((nplus rat 0 1 - 1) / nplus rat 0 1) *: 0
            + nth 0 (inv_B_of triangle axes_V) 1) = 0
    & ((nplus rat 0 1 - 1) / nplus rat 0 1) *: 0
      + nth 0 (inv_B_of triangle axes_V) 1 \notin unitmx].
Proof.
exact: (@warm_up_covariance_singular _ _ eigh_axes sqrtq 25%:R 2 3%:R 50%:Z
          (-1) fresh_plane fresh_plane triangle axes_V 2 _ (erefl _)
          (reach_init _ _ _) triangle_two_rows (erefl _) isT isT).
Defined.



Lemma call_outcomes_witness :
  exists2 Xclip, get_Xclip warm_state two_points = Ok Xclip
                 /\ size Xclip = size two_points
  & [/\ two_points = [::] ->
          _get_preds eigh1 sqrtq two_points warm_state
          = (Raise IndexError, warm_state),
        two_points != [::] ->
          forall e,
            eigh1 (n_comp warm_state) (eigvals_range 1 (n_comp warm_state))
              (cov_batch_of warm_state Xclip) = Raise e ->
            _get_preds eigh1 sqrtq two_points warm_state
            = (Raise e, warm_state),
        two_points != [::] ->
          is_ok (eigh1 (n_comp warm_state)
                   (eigvals_range 1 (n_comp warm_state))
                   (cov_batch_of warm_state Xclip)) ->
          is_ok (_get_preds eigh1 sqrtq two_points warm_state).1
      & forall e, (_get_preds eigh1 sqrtq two_points warm_state).1 = Raise e ->
          (two_points = [::] /\ e = IndexError)
          \/ (two_points != [::]
              /\ eigh1 (n_comp warm_state)
                   (eigvals_range 1 (n_comp warm_state))
                   (cov_batch_of warm_state Xclip) = Raise e)].
Proof.
exact: (@call_outcomes _ _ eigh1 sqrtq 25%:R 3 3%:R 50%:Z (-1) fresh
          warm_state two_points (erefl _) warm_state_reachable isT isT isT).
Defined.

Lemma threshold_only_affects_labels_witness :
  [/\ statistics (process_all eigh1 sqrtq [:: two_points] fresh)
      = statistics (process_all eigh1 sqrtq [:: two_points] fresh_strict),
      forall e, (_get_preds eigh1 sqrtq two_points fresh).1 = Raise e <->
                (_get_preds eigh1 sqrtq two_points fresh_strict).1 = Raise e
    & forall l1 l2,
        (_get_preds eigh1 sqrtq two_points fresh).1 = Ok l1 ->
        (_get_preds eigh1 sqrtq two_points fresh_strict).1 = Ok l2 ->
        size l1 = size l2 /\ forall i, (nth 0 l2 i <= nth 0 l1 i)%N].
Proof.
exact: (@threshold_only_affects_labels _ _ eigh1 sqrtq [:: two_points]
          two_points fresh fresh_strict (erefl _) isT).
Defined.


Lemma cap_one_divides_by_zero_witness :
  _get_preds eigh1 sqrtq two_points seed_state
  = (Raise ZeroDivisionError, seed_state).
Proof.
apply: (@cap_one_divides_by_zero _ _ eigh1 sqrtq seed_state two_points
          two_points seed_V (erefl _) isT (erefl _) (erefl _) _ isT).
rewrite /seed_V; scalar_form.
by apply: lt_le_trans (EPSILON_lt1 _) _.
Defined.

Lemma single_row_batch_divides_by_n_plus_one_witness :
  [/\ mean (_get_preds eigh1 sqrtq [:: row1 4%:R] warm_state).2
      = sample_mean (rcons two_points (row1 4%:R)),
      C_val (_get_preds eigh1 sqrtq [:: row1 4%:R] warm_state).2
      = ((size two_points)%:R + 1)^-1 *: scatter (rcons two_points (row1 4%:R))
    & C_val (_get_preds eigh1 sqrtq [:: row1 4%:R] warm_state).2
      = ((size two_points)%:R / ((size two_points)%:R + 1))
          *: sample_cov (rcons two_points (row1 4%:R))].
Proof.
have [||sc [pr call]] // :=
  @single_row_state _ _ eigh1 sqrtq warm_state (row1 4%:R) (const_mx 1).
apply: (@single_row_batch_divides_by_n_plus_one _ _ eigh1 sqrtq warm_state
          two_points (row1 4%:R) pr _ warm_state_tracks isT isT).
by rewrite call.
Defined.

Lemma negative_start_clip_raises_witness :
  (_get_preds eigh1 sqrtq two_points fresh_negative).2 = fresh_negative
  /\ _get_preds eigh1 sqrtq two_points
       (_get_preds eigh1 sqrtq two_points fresh_negative).2
     = (Raise TypeError, (_get_preds eigh1 sqrtq two_points fresh_negative).2).
Proof.
exact: (@negative_start_clip_raises _ _ eigh1 sqrtq 25%:R 3 3%:R (-1) (-1)
          fresh_negative _ two_points (erefl _) isT
          (reach_call two_points (reach_init _ _ _))).
Defined.

(* The batch far_points clamped to the bounds -2 and 4: the row 9
   becomes 4. *)
Lemma far_points_clamped :
  np_clip far_points (row1 (-2%:R)) (row1 4%:R) = [:: row1 0; row1 4%:R].
Proof.
rewrite /np_clip /far_points /= !row1E /row1 !smx_entry.
by congr [:: _%:M; _%:M]; apply/eqP.
Qed.

Lemma clip_bounds_invariant_witness :
  [/\ 0 <= (1 : int) ->
        (clip clipping_state = None
         <-> (n clipping_state)%:Z <= start_clip clipping_state),
      0 <= (1 : int) -> start_clip clipping_state < (n clipping_state)%:Z ->
        exists lo hi,
          [/\ clip clipping_state = Some (lo, hi),
              get_Xclip clipping_state far_points
              = Ok (np_clip far_points lo hi),
              size (np_clip far_points lo hi) = size far_points
            & forall i j, (i < size far_points)%N ->
                nth 0 (np_clip far_points lo hi) i 0 j
                = Num.min (Num.max (nth 0 far_points i 0 j) (lo 0 j))
                          (hi 0 j)],
      (n clipping_state)%:Z <= start_clip clipping_state ->
        get_Xclip clipping_state far_points = Ok far_points
    & n clipping_state = 0%N ->
        clip clipping_state = None
        /\ get_Xclip clipping_state far_points
           = if start_clip clipping_state < 0 then Raise TypeError
             else Ok far_points].
Proof.
exact: (@clip_bounds_invariant _ _ eigh1 sqrtq 25%:R 3 3%:R 1 (-1)
          fresh_clip1 clipping_state far_points (erefl _)
          clipping_state_reachable).
Defined.

(* C5, as stated, fails: the constructor accepts start_clip = -1, and in
   the state it returns clip is None although n = 0 exceeds start_clip;
   a call does not take the batch as it is, it raises TypeError. *)
Lemma clip_none_above_negative_start_clip :
  [/\ init 1 (25%:R : rat) 3 3%:R (-1) (-1) = Ok fresh_negative,
      reachable eigh1 sqrtq fresh_negative fresh_negative,
      clip fresh_negative = None,
      ((n fresh_negative)%:Z <= start_clip fresh_negative) = false
    & get_Xclip fresh_negative two_points = Raise TypeError].
Proof. by split=> //; apply: reach_init. Qed.
